(** * A shallow embedding of [main.py]: fetch, validate, join, write

    The program fetches users, their latest posts and the latest comments of
    each post from a JSON API, joins them into flat rows and writes one CSV
    file.  The embedding keeps the structure of the source:

    - JSON records are Python dicts: [gmap string value];
    - coroutines are trees of effects ([prog]): every [await] on the network
      or on [asyncio.sleep] and every [logging] call is a node, exceptions
      are [Raise] leaves;
    - [tenacity.retry] is a combinator on such trees;
    - [asyncio.gather] is an interleaving of the task trees, driven by an
      arbitrary schedule;
    - the world holds the upstream server, the log, the sleeps and the
      output file. *)

From Stdlib Require Import ZArith String List Sorting.Sorted Permutation Lia.
From stdpp Require Import gmap strings list fin_maps pretty.

Local Open Scope string_scope.
Local Open Scope list_scope.

(** ** Values, records and exceptions *)

(** The scalar field values of a JSON object, as [json] decoding gives them
    to Python.  Floats, nested arrays and nested objects are left out: the
    API's records are flat, and every field the program reads is an integer
    or a string. *)
Inductive value : Type :=
| VNull
| VBool (b : bool)
| VInt (z : Z)
| VStr (s : string).

#[global] Instance value_eq_dec : EqDecision value.
Proof. solve_decision. Defined.

(** A record is a Python [dict] with string keys. *)
Abbreviation record := (gmap string value).

(** The exceptions that can be raised along a run.  [ClientError] stands for
    [aiohttp.ClientError] and its subclasses, [OtherError] for any other
    exception the HTTP client lets through (a timeout, a JSON decoding
    error).  [RetryError] is tenacity's: its only payload is the last
    attempt, here the exception that attempt raised. *)
Inductive exn : Type :=
| ClientError (detail : string)
| OtherError (detail : string)
| TypeError
| KeyError (key : string)
| ValueError
| RetryError (last_attempt : exn).

#[global] Instance exn_eq_dec : EqDecision exn.
Proof. solve_decision. Defined.

Definition is_client_error (e : exn) : bool :=
  match e with ClientError _ => true | _ => false end.

(** Computations that may raise: [inl e] is a raised exception. *)
Abbreviation result A := (exn + A)%type.

Definition rbind {A B} (r : result A) (f : A -> result B) : result B :=
  match r with inl e => inl e | inr a => f a end.

(** ** Python's operators on values *)

(** [d.get(k)]: the value, or [None] when the key is absent. *)
Definition py_get (d : record) (k : string) : value :=
  match d !! k with Some v => v | None => VNull end.

(** [d[k]]: raises [KeyError] when the key is absent. *)
Definition py_getitem (d : record) (k : string) : result value :=
  match d !! k with Some v => inr v | None => inl (KeyError k) end.

(** [k in d]. *)
Definition py_in (k : string) (d : record) : bool :=
  match d !! k with Some _ => true | None => false end.

(** [v is None]. *)
Definition is_None (v : value) : bool :=
  match v with VNull => true | _ => false end.

(** The integer a value counts as in arithmetic and comparisons ([bool] is a
    subclass of [int]). *)
Definition as_int (v : value) : option Z :=
  match v with
  | VInt z => Some z
  | VBool b => Some (Z.b2z b)
  | _ => None
  end.

(** [v1 == v2]. *)
Definition py_eq (v1 v2 : value) : bool :=
  match as_int v1, as_int v2 with
  | Some a, Some b => (a =? b)%Z
  | _, _ =>
      match v1, v2 with
      | VNull, VNull => true
      | VStr a, VStr b => String.eqb a b
      | _, _ => false
      end
  end.

(** [v1 < v2]: integers by value, strings lexicographically, anything else
    raises [TypeError]. *)
Definition py_lt (v1 v2 : value) : result bool :=
  match as_int v1, as_int v2 with
  | Some a, Some b => inr (a <? b)%Z
  | _, _ =>
      match v1, v2 with
      | VStr a, VStr b => inr (String.ltb a b)
      | _, _ => inl TypeError
      end
  end.

(** [str(v)], as an f-string interpolates it. *)
Definition py_str (v : value) : string :=
  match v with
  | VNull => "None"
  | VBool true => "True"
  | VBool false => "False"
  | VInt z => pretty z
  | VStr s => s
  end.

(** A stand-in for Python's printf-style formatting in concrete runs:
    formatting a string that holds no conversion by an integer raises. *)
Definition no_format : string -> Z -> result string := fun _ _ => inl TypeError.

Section Program.

(** Python's printf-style formatting [s % n] of a string by an integer,
    which the program reaches only when an [id] is a string.  It either
    raises or gives a string; which one is left open. *)
Variable str_format : string -> Z -> result string.

(** [v % n] for a positive integer [n]. *)
Definition py_mod (v : value) (n : Z) : result value :=
  match v with
  | VInt z => inr (VInt (z mod n))
  | VBool b => inr (VInt (Z.b2z b mod n))
  | VStr s => rbind (str_format s n) (fun s' => inr (VStr s'))
  | VNull => inl TypeError
  end.

(** ** Sorting: [sorted(records, key=lambda x: x.get("id"), reverse=True)] *)

Definition sort_key (x : record) : value := py_get x "id".

(** One insertion of a stable ascending sort that only uses [<], as
    [list.sort] does.  [x] stood before every element of [l] in the input;
    it moves right only past elements strictly smaller than itself. *)
Fixpoint insert_asc (x : record) (l : list record) : result (list record) :=
  match l with
  | [] => inr [x]
  | y :: l' =>
      rbind (py_lt (sort_key y) (sort_key x)) (fun lt =>
        if lt then rbind (insert_asc x l') (fun r => inr (y :: r))
        else inr (x :: l))
  end.

Fixpoint sort_asc (l : list record) : result (list record) :=
  match l with
  | [] => inr []
  | x :: l' => rbind (sort_asc l') (insert_asc x)
  end.

(** [sorted(l, key=..., reverse=True)]: CPython reverses the list, sorts it
    stably in ascending order and reverses the outcome, which keeps records
    with equal keys in their input order.  The insertion sort stands for
    Timsort: both give the one stable ordering, and both raise [TypeError]
    exactly when the list has two or more records whose keys are not all
    integers or all strings. *)
Definition sorted_reverse (l : list record) : result (list record) :=
  rbind (sort_asc (rev l)) (fun r => inr (rev r)).

(** The slice [l[:n]]. *)
Definition slice_to (n : nat) (l : list record) : list record := take n l.

(** ** Effects *)

(** What one GET gives back: [session.get] or [raise_for_status] raised, or
    a 2xx response whose [json()] is decoded (and may itself raise). *)
Inductive outcome : Type :=
| Failed (e : exn)
| Responded (body : result (list record)).

Inductive log_entry : Type :=
| InfoFetching (url : string)
| InfoFetched (url : string)
| ErrorApiFailed (url : string) (e : exn)
| WarningValidation (field : string) (data : record)
| InfoWritten (path : string)
| InfoNoData.

(** A coroutine, as the tree of its effects. *)
Inductive prog (A : Type) : Type :=
| Ret (a : A)
| Raise (e : exn)
| Get (url : string) (k : outcome -> prog A)
| Sleep (seconds : Z) (k : prog A)
| Log (entry : log_entry) (k : prog A).

Arguments Ret {A} a.
Arguments Raise {A} e.
Arguments Get {A} url k.
Arguments Sleep {A} seconds k.
Arguments Log {A} entry k.

Fixpoint bind {A B} (m : prog A) (f : A -> prog B) : prog B :=
  match m with
  | Ret a => f a
  | Raise e => Raise e
  | Get url k => Get url (fun o => bind (k o) f)
  | Sleep s k => Sleep s (bind k f)
  | Log l k => Log l (bind k f)
  end.

Notation "'let!' x ':=' m 'in' k" := (bind m (fun x => k))
  (at level 10, x name, m at level 100, k at level 200).

(** A pure computation that may raise, run inside a coroutine. *)
Definition lift {A} (r : result A) : prog A :=
  match r with inl e => Raise e | inr a => Ret a end.

(** [try: m except Exception as e: ...], handing the exception to the
    caller as a value. *)
Fixpoint try_ {A} (m : prog A) : prog (result A) :=
  match m with
  | Ret a => Ret (inr a)
  | Raise e => Ret (inl e)
  | Get url k => Get url (fun o => try_ (k o))
  | Sleep s k => Sleep s (try_ k)
  | Log l k => Log l (try_ k)
  end.

(** ** The world *)

(** [net] is the upstream server: its answer to a request may depend on
    every request served before ([history]).  [slept] are the durations
    passed to [asyncio.sleep], [log] the records handed to [logging], and
    [output_csv] the lines of [output.csv] when the file exists. *)
Record world : Type := mkWorld {
  net : list string -> string -> outcome;
  history : list string;
  slept : list Z;
  log : list log_entry;
  output_csv : option (list (list value))
}.

Definition serve (w : world) (url : string) : outcome * world :=
  (net w (history w) url,
   mkWorld (net w) (history w ++ [url]) (slept w) (log w) (output_csv w)).

Definition do_sleep (w : world) (s : Z) : world :=
  mkWorld (net w) (history w) (slept w ++ [s]) (log w) (output_csv w).

Definition do_log (w : world) (l : log_entry) : world :=
  mkWorld (net w) (history w) (slept w) (log w ++ [l]) (output_csv w).

Definition set_output (w : world) (f : list (list value)) : world :=
  mkWorld (net w) (history w) (slept w) (log w) (Some f).

(** Running one coroutine to its end, alone on the event loop. *)
Fixpoint exec {A} (m : prog A) (w : world) : result A * world :=
  match m with
  | Ret a => (inr a, w)
  | Raise e => (inl e, w)
  | Get url k => let '(o, w') := serve w url in exec (k o) w'
  | Sleep s k => exec k (do_sleep w s)
  | Log l k => exec k (do_log w l)
  end.

(** ** The HTTP fetcher *)

Definition BASE_URL : string := "https://jsonplaceholder.typicode.com".
Definition USERS_URL : string := BASE_URL +:+ "/users".
Definition POSTS_URL : string := BASE_URL +:+ "/posts".
Definition COMMENTS_URL : string := BASE_URL +:+ "/comments".
Definition OUTPUT_CSV_PATH : string := "output.csv".

(** The body of [fetch_json], one attempt. *)
Definition fetch_json_once (url : string) : prog (list record) :=
  Log (InfoFetching url)
    (Get url (fun o =>
       (* except aiohttp.ClientError as e: log the error and re-raise *)
       let on_error (e : exn) : prog (list record) :=
         if is_client_error e then Log (ErrorApiFailed url e) (Raise e)
         else Raise e in
       match o with
       | Failed e => on_error e
       | Responded body =>
           Log (InfoFetched url)
             match body with
             | inr js => Ret js
             | inl e => on_error e
             end
       end)).

(** [tenacity.wait_exponential(multiplier, min, max)], with the default
    [exp_base] of 2: [max(max(0, min), min(multiplier * 2 ** (n - 1), max))]
    after the [n]-th attempt. *)
Definition wait_exponential (multiplier min max : Z) (attempt_number : nat) : Z :=
  Z.max (Z.max 0 min) (Z.min (multiplier * 2 ^ (Z.of_nat attempt_number - 1)) max).

(** tenacity's loop from attempt [attempt_number] on.  [attempts_left] is
    the number of attempts [stop_after_attempt] still allows after this one:
    the stop condition [attempt_number >= max_attempt_number] holds exactly
    when it is 0.  The loop calls the function and hands back its result; on
    an exception it stops with [RetryError] when the stop condition holds,
    else it sleeps for [wait attempt_number] and goes round again. *)
Fixpoint retry_loop {A} (wait : nat -> Z) (attempts_left attempt_number : nat)
    (fn : prog A) : prog A :=
  let! r := try_ fn in
  match r with
  | inr a => Ret a
  | inl e =>
      match attempts_left with
      | O => Raise (RetryError e)
      | S n => Sleep (wait attempt_number) (retry_loop wait n (S attempt_number) fn)
      end
  end.

(** [@retry(stop=stop_after_attempt(max_attempt_number), wait=wait)]: the
    first attempt has number 1. *)
Definition retry {A} (max_attempt_number : nat) (wait : nat -> Z) (fn : prog A) : prog A :=
  retry_loop wait (max_attempt_number - 1) 1 fn.

Definition fetch_wait : nat -> Z := wait_exponential 1 4 10.

Definition fetch_json (url : string) : prog (list record) :=
  retry 3 fetch_wait (fetch_json_once url).

(** ** The collection fetchers *)

(** The list comprehension [[x for x in l if test x]], where the test may
    raise. *)
Fixpoint comprehension (test : record -> result bool) (l : list record)
    : result (list record) :=
  match l with
  | [] => inr []
  | x :: l' =>
      rbind (test x) (fun keep =>
        rbind (comprehension test l') (fun r =>
          inr (if keep then x :: r else r)))
  end.

(** [user.get("id") % 2 == 0]. *)
Definition even_id (user : record) : result bool :=
  rbind (py_mod (py_get user "id") 2) (fun m => inr (py_eq m (VInt 0))).

Definition get_users : prog (list record) :=
  let! users := fetch_json USERS_URL in
  lift (comprehension even_id users).

Definition get_latest_posts_for_user (user_id : value) : prog (list record) :=
  let posts_url := POSTS_URL +:+ "?userId=" +:+ py_str user_id in
  let! posts := fetch_json posts_url in
  let! r := lift (sorted_reverse posts) in
  Ret (slice_to 5 r).

Definition get_latest_comments_for_post (post_id : value) : prog (list record) :=
  let comments_url := COMMENTS_URL +:+ "?postId=" +:+ py_str post_id in
  let! comments := fetch_json comments_url in
  let! r := lift (sorted_reverse comments) in
  Ret (slice_to 3 r).

(** ** The validator *)

Fixpoint validate_data (data : record) (required_fields : list string) : prog bool :=
  match required_fields with
  | [] => Ret true
  | field :: rest =>
      if negb (py_in field data) || is_None (py_get data field)
      then Log (WarningValidation field data) (Ret false)
      else validate_data data rest
  end.

(** ** The join pipeline *)

(** The row appended for one (user, post, comment) triple: a dict literal
    whose values are evaluated from left to right. *)
Definition output_row (user_id : value) (user post comment : record) : result record :=
  rbind (py_getitem user "name") (fun user_name =>
  rbind (py_getitem post "id") (fun post_id =>
  rbind (py_getitem post "title") (fun post_title =>
  rbind (py_getitem comment "id") (fun comment_id =>
  rbind (py_getitem comment "body") (fun comment_body =>
  rbind (py_getitem comment "email") (fun comment_email =>
    inr (list_to_map
           [("user_id", user_id);
            ("user_name", user_name);
            ("post_id", post_id);
            ("post_title", post_title);
            ("comment_id", comment_id);
            ("comment_body", comment_body);
            ("comment_author_email", comment_email)] : record))))))).

(** [for comment in comments: ...], threading the list [user_comments] that
    the loop appends to. *)
Fixpoint comments_loop (user_id : value) (user post : record)
    (comments : list record) (user_comments : list record) : prog (list record) :=
  match comments with
  | [] => Ret user_comments
  | comment :: rest =>
      let! ok := validate_data comment ["id"; "body"; "email"] in
      if negb ok then comments_loop user_id user post rest user_comments
      else
        let! row := lift (output_row user_id user post comment) in
        comments_loop user_id user post rest (user_comments ++ [row])
  end.

(** [for post in posts: ...]. *)
Fixpoint posts_loop (user_id : value) (user : record)
    (posts : list record) (user_comments : list record) : prog (list record) :=
  match posts with
  | [] => Ret user_comments
  | post :: rest =>
      let! ok := validate_data post ["id"; "title"] in
      if negb ok then posts_loop user_id user rest user_comments
      else
        let! post_id := lift (py_getitem post "id") in
        let! comments := get_latest_comments_for_post post_id in
        let! user_comments' := comments_loop user_id user post comments user_comments in
        posts_loop user_id user rest user_comments'
  end.

Definition process_user_data (user : record) : prog (list record) :=
  let! ok := validate_data user ["id"; "name"] in
  if negb ok then Ret []
  else
    let! user_id := lift (py_getitem user "id") in
    let! posts := get_latest_posts_for_user user_id in
    posts_loop user_id user posts [].

(** ** [asyncio.gather] *)

Definition is_done {A} (t : prog A) : bool :=
  match t with Ret _ => true | _ => false end.

(** One step of a task: the effect at its root happens and the task moves
    to the continuation. *)
Definition step_task {A} (t : prog A) (w : world) : prog A * world :=
  match t with
  | Get url k => let '(o, w') := serve w url in (k o, w')
  | Sleep s k => (k, do_sleep w s)
  | Log l k => (k, do_log w l)
  | _ => (t, w)
  end.

(** Steps the [n]-th task among those that have not returned yet. *)
Fixpoint step_nth {A} (n : nat) (tasks : list (prog A)) (w : world)
    : list (prog A) * world :=
  match tasks with
  | [] => ([], w)
  | t :: ts =>
      if is_done t then
        let '(ts', w') := step_nth n ts w in (t :: ts', w')
      else
        match n with
        | O => let '(t', w') := step_task t w in (t' :: ts, w')
        | S n' => let '(ts', w') := step_nth n' ts w in (t :: ts', w')
        end
  end.

Definition pending {A} (tasks : list (prog A)) : nat :=
  length (filter (fun t => negb (is_done t)) tasks).

(** The exception of the first task found raised, if any. *)
Fixpoint first_raised {A} (tasks : list (prog A)) : option exn :=
  match tasks with
  | [] => None
  | Raise e :: _ => Some e
  | _ :: ts => first_raised ts
  end.

(** The results in task order, once every task has returned. *)
Fixpoint results_of {A} (tasks : list (prog A)) : option (list A) :=
  match tasks with
  | [] => Some []
  | Ret a :: ts =>
      match results_of ts with Some rs => Some (a :: rs) | None => None end
  | _ :: _ => None
  end.

(** [await asyncio.gather] of the tasks under the schedule [sched]: at tick [n]
    the event loop resumes the task that [sched n] picks among the pending
    ones.  The first exception raised by a task is raised by [gather]; when
    all tasks have returned, [gather] returns their results in the order of
    the tasks.  A schedule steps one node at a time, log records included,
    which covers every interleaving the event loop can produce.  [None]
    means the fuel ran out. *)
Fixpoint gather {A} (fuel : nat) (sched : nat -> nat) (tick : nat)
    (tasks : list (prog A)) (w : world) : option (result (list A) * world) :=
  match first_raised tasks with
  | Some e => Some (inl e, w)
  | None =>
      match results_of tasks with
      | Some rs => Some (inr rs, w)
      | None =>
          match fuel with
          | O => None
          | S fuel' =>
              let '(tasks', w') :=
                step_nth (sched tick mod pending tasks) tasks w in
              gather fuel' sched (S tick) tasks' w'
          end
      end
  end.

(** ** The writer and [main] *)

Definition fieldnames : list string :=
  ["user_id"; "user_name"; "post_id"; "post_title";
   "comment_id"; "comment_body"; "comment_author_email"].

(** [csv.DictWriter._dict_to_list]: a key outside [fieldnames] raises
    [ValueError]; a missing field is written as the empty string. *)
Definition dict_to_list (rowdict : record) : result (list value) :=
  if forallb (fun kv => bool_decide (fst kv ∈ fieldnames)) (map_to_list rowdict)
  then inr (map (fun k => match rowdict !! k with Some v => v | None => VStr "" end)
                fieldnames)
  else inl ValueError.

(** [writer.writerows(rows)] onto the lines written so far. *)
Fixpoint writerows (rows : list record) (file : list (list value))
    : result unit * list (list value) :=
  match rows with
  | [] => (inr tt, file)
  | r :: rest =>
      match dict_to_list r with
      | inl e => (inl e, file)
      | inr line => writerows rest (file ++ [line])
      end
  end.

(** An upper bound on the number of effects of one [process_user_data]
    task: a validation warning, the posts fetch, and for each of at most
    five posts a warning or a comments fetch and three warnings. *)
Definition fetch_steps : nat := 3 * 4 + 2.
Definition process_user_steps : nat := 1 + fetch_steps + 5 * (1 + fetch_steps + 3).

(** The [async with] block of [main]: the users, one task per user, the
    gathered results flattened. *)
Definition collect (sched : nat -> nat) (w : world)
    : option (result (list record) * world) :=
  match exec get_users w with
  | (inl e, w1) => Some (inl e, w1)
  | (inr users, w1) =>
      let tasks := map process_user_data users in
      match gather (process_user_steps * length tasks) sched 0 tasks w1 with
      | None => None
      | Some (inl e, w2) => Some (inl e, w2)
      | Some (inr results, w2) => Some (inr (concat results), w2)
      end
  end.

Definition write_csv (all_comments_data : list record) (w : world) : result unit * world :=
  match all_comments_data with
  | [] => (inr tt, do_log w InfoNoData)
  | _ :: _ =>
      (* open(OUTPUT_CSV_PATH, "w") truncates; writeheader; writerows *)
      let '(r, file) := writerows all_comments_data [map VStr fieldnames] in
      match r with
      | inl e => (inl e, set_output w file)
      | inr _ => (inr tt, do_log (set_output w file) (InfoWritten OUTPUT_CSV_PATH))
      end
  end.

Definition main (sched : nat -> nat) (w : world) : option (result unit * world) :=
  match collect sched w with
  | None => None
  | Some (inl e, w1) => Some (inl e, w1)
  | Some (inr all_comments_data, w1) => Some (write_csv all_comments_data w1)
  end.
(** ** Specification vocabulary *)

(** A record that carries an integer [id], as the data model types it. *)
Definition has_int_id (r : record) : Prop := exists z, r !! "id" = Some (VInt z).

(** A record whose [id] key is missing or [null]. *)
Definition lacks_id (u : record) : Prop := u !! "id" = None \/ u !! "id" = Some VNull.

(** The [id] of a record, as an integer. *)
Definition id_of (r : record) : Z :=
  match as_int (sort_key r) with Some z => z | None => 0%Z end.

(** Adjacent records never ascend in Python's [<] on their [id]s. *)
Definition descending (l : list record) : Prop :=
  Sorted (fun a b => py_lt (sort_key a) (sort_key b) = inr false) l.

(** Ascending, as the inner sort leaves it: no record is smaller than its
    predecessor. *)
Definition ascending (l : list record) : Prop :=
  Sorted (fun a b => py_lt (sort_key b) (sort_key a) = inr false) l.





(** The validator as a plain test. *)
Definition valid (data : record) (required_fields : list string) : bool :=
  forallb (fun field => py_in field data && negb (is_None (py_get data field)))
          required_fields.

(** The result of one attempt, from what the GET gave. *)
Definition attempt_result (o : outcome) : result (list record) :=
  match o with Failed e => inl e | Responded body => body end.

(** Each wait is longer than the one before. *)
Definition strictly_increasing (l : list Z) : Prop :=
  forall i a b, l !! i = Some a -> l !! S i = Some b -> (a < b)%Z.

(** [served_by f url o]: the server [f] gives [o] for [url] after some
    history of requests. *)
Definition served_by (f : list string -> string -> outcome)
    (url : string) (o : outcome) : Prop :=
  exists h, f h url = o.

(** A server that answers each URL in one way only. *)
Definition functional (srv : string -> outcome -> Prop) : Prop :=
  forall url o o', srv url o -> srv url o' -> o = o'.

(** [returns srv m p a]: the coroutine [m] returns [a] along a path on which
    every GET is answered as [srv] allows; [p] lists the URLs requested on
    the way. *)
Inductive returns {A} (srv : string -> outcome -> Prop)
    : prog A -> list string -> A -> Prop :=
| returns_Ret a : returns srv (Ret a) [] a
| returns_Get url k o p a :
    srv url o -> returns srv (k o) p a -> returns srv (Get url k) (url :: p) a
| returns_Sleep s k p a : returns srv k p a -> returns srv (Sleep s k) p a
| returns_Log l k p a : returns srv k p a -> returns srv (Log l k) p a.

(** [raises srv m p e]: likewise for a path that ends in the exception [e]. *)
Inductive raises {A} (srv : string -> outcome -> Prop)
    : prog A -> list string -> exn -> Prop :=
| raises_Raise e : raises srv (Raise e) [] e
| raises_Get url k o p e :
    srv url o -> raises srv (k o) p e -> raises srv (Get url k) (url :: p) e
| raises_Sleep s k p e : raises srv k p e -> raises srv (Sleep s k) p e
| raises_Log l k p e : raises srv k p e -> raises srv (Log l k) p e.

(** [steps_le n m]: no path of [m] has more than [n] effects. *)
Inductive steps_le {A} : nat -> prog A -> Prop :=
| steps_Ret n a : steps_le n (Ret a)
| steps_Raise n e : steps_le n (Raise e)
| steps_Get n url k : (forall o, steps_le n (k o)) -> steps_le (S n) (Get url k)
| steps_Sleep n s k : steps_le n k -> steps_le (S n) (Sleep s k)
| steps_Log n l k : steps_le n k -> steps_le (S n) (Log l k).

(** The part of the world a coroutine cannot change. *)
Definition frame (w w' : world) : Prop :=
  net w' = net w /\ output_csv w' = output_csv w.

(** [t'] is a later state of the task [t], reached by requesting [new]:
    whatever [t'] can do, [t] could. *)
Definition later_of {A} (srv : string -> outcome -> Prop)
    (t : prog A) (new : list string) (t' : prog A) : Prop :=
  (forall p a, returns srv t' p a -> returns srv t (new ++ p) a) /\
  (forall p e, raises srv t' p e -> raises srv t (new ++ p) e).

(** [srv] serves [url] successfully at least once. *)
Definition served_ok (srv : string -> outcome -> Prop) (url : string) : Prop :=
  exists js, srv url (Responded (inr js)).

(** The URLs the collection fetchers build. *)
Definition posts_url (user_id : value) : string :=
  POSTS_URL +:+ "?userId=" +:+ py_str user_id.
Definition comments_url (post_id : value) : string :=
  COMMENTS_URL +:+ "?postId=" +:+ py_str post_id.

(** [out] is what a collection fetcher makes of an answer to [url]: the
    first [n] records of the answer sorted by descending [id]. *)
Definition latest_from (srv : string -> outcome -> Prop) (url : string)
    (n : nat) (out : list record) : Prop :=
  exists raw s,
    srv url (Responded (inr raw)) /\ sorted_reverse raw = inr s /\
    out = slice_to n s.

(** The rows of one post: one row per valid comment among the three latest
    comments served for that post, in their descending order. *)
Definition post_block (srv : string -> outcome -> Prop) (user_id : value)
    (user post : record) (block : list record) : Prop :=
  exists post_id comments,
    post !! "id" = Some post_id /\
    latest_from srv (comments_url post_id) 3 comments /\
    descending comments /\
    Forall2 (fun comment row => output_row user_id user post comment = inr row)
      (List.filter (fun c => valid c ["id"; "body"; "email"]) comments) block.

(** The rows of one user: nothing for an invalid user, else the blocks of
    the valid posts among the five latest posts served for that user, in
    their descending order. *)
Definition user_block (srv : string -> outcome -> Prop)
    (user : record) (rows : list record) : Prop :=
  if valid user ["id"; "name"] then
    exists user_id posts blocks,
      user !! "id" = Some user_id /\
      latest_from srv (posts_url user_id) 5 posts /\
      descending posts /\
      Forall2 (post_block srv user_id user)
        (List.filter (fun p => valid p ["id"; "title"]) posts) blocks /\
      rows = concat blocks
  else rows = [].

(** A well-formed output row: its keys are the CSV header's and none of its
    values is [None]. *)
Definition row_ok (row : record) : Prop :=
  dom row = (list_to_set fieldnames : gset string) /\
  forall k, In k fieldnames -> exists v, row !! k = Some v /\ v <> VNull.

(** ** Further vocabulary *)


(** The first required field that is missing or null, if any. *)
Definition first_invalid (data : record) (required_fields : list string)
    : option string :=
  List.find (fun field => negb (py_in field data) || is_None (py_get data field))
            required_fields.

(** The log records of one attempt that got [o]: the error record is only
    written for an [aiohttp.ClientError], and a 2xx response is logged as
    fetched before its body is decoded. *)
Definition error_log (url : string) (e : exn) : list log_entry :=
  if is_client_error e then [ErrorApiFailed url e] else [].

Definition attempt_log (url : string) (o : outcome) : list log_entry :=
  InfoFetching url ::
  match o with
  | Failed e => error_log url e
  | Responded (inr _) => [InfoFetched url]
  | Responded (inl e) => InfoFetched url :: error_log url e
  end.

Definition failed (o : outcome) : bool :=
  match attempt_result o with inl _ => true | inr _ => false end.

(** [reaches srv m p]: the coroutine [m] can come to request the URLs [p],
    in this order, on a path that need not be complete. *)
Inductive reaches {A} (srv : string -> outcome -> Prop)
    : prog A -> list string -> Prop :=
| reaches_here m : reaches srv m []
| reaches_Get url k o p :
    srv url o -> reaches srv (k o) p -> reaches srv (Get url k) (url :: p)
| reaches_Sleep s k p : reaches srv k p -> reaches srv (Sleep s k) p
| reaches_Log l k p : reaches srv k p -> reaches srv (Log l k) p.

(** [gets_le n m]: no path of [m] makes more than [n] requests. *)
Inductive gets_le {A} : nat -> prog A -> Prop :=
| gets_Ret n a : gets_le n (Ret a)
| gets_Raise n e : gets_le n (Raise e)
| gets_Get n url k : (forall o, gets_le n (k o)) -> gets_le (S n) (Get url k)
| gets_Sleep n s k : gets_le n k -> gets_le n (Sleep s k)
| gets_Log n l k : gets_le n k -> gets_le n (Log l k).

(** The users a run works on: those [get_users] returns, none when it
    raises. *)
Definition users_of (w : world) : list record :=
  match fst (exec get_users w) with inr users => users | inl _ => [] end.

(** A request [process_user_data] may make for [user]: the posts of the
    user's id, or the comments of a valid post among the five latest. *)
Definition task_request (srv : string -> outcome -> Prop) (user : record)
    (url : string) : Prop :=
  valid user ["id"; "name"] = true /\
  exists user_id,
    user !! "id" = Some user_id /\
    (url = posts_url user_id \/
     exists posts post post_id,
       latest_from srv (posts_url user_id) 5 posts /\ In post posts /\
       valid post ["id"; "title"] = true /\ post !! "id" = Some post_id /\
       url = comments_url post_id).


(** [row] joins [user] with one of the posts served for the user's id and
    one of the comments served for that post's id, field by field. *)
Definition joins (srv : string -> outcome -> Prop) (user row : record) : Prop :=
  exists user_id posts post post_id comments comment,
    user !! "id" = Some user_id /\
    latest_from srv (posts_url user_id) 5 posts /\ In post posts /\
    post !! "id" = Some post_id /\
    latest_from srv (comments_url post_id) 3 comments /\ In comment comments /\
    row !! "user_id" = user !! "id" /\
    row !! "user_name" = user !! "name" /\
    row !! "post_id" = post !! "id" /\
    row !! "post_title" = post !! "title" /\
    row !! "comment_id" = comment !! "id" /\
    row !! "comment_body" = comment !! "body" /\
    row !! "comment_author_email" = comment !! "email".

(** Two worlds that differ in their logs at most. *)
Definition same_but_log (w1 w2 : world) : Prop :=
  net w1 = net w2 /\ history w1 = history w2 /\
  slept w1 = slept w2 /\ output_csv w1 = output_csv w2.

(** Two coroutines that, from worlds that differ in their logs at most,
    give the same result and leave worlds that differ in their logs at
    most. *)
Definition same_run {A} (m1 m2 : prog A) : Prop :=
  forall w1 w2, same_but_log w1 w2 ->
    fst (exec m1 w1) = fst (exec m2 w2) /\
    same_but_log (snd (exec m1 w1)) (snd (exec m2 w2)).

(** The CSV line of a row: its values in the order of the header. *)
Definition cells (row : record) : list value := map (py_get row) fieldnames.

(** ** Concrete runs *)

(** The scenario of the specification: user 1 is odd, user 2 has posts 9
    and 10, post 10 has comment 100, post 9 has none. *)
Definition user1 : record := list_to_map [("id", VInt 1); ("name", VStr "A")].
Definition user2 : record := list_to_map [("id", VInt 2); ("name", VStr "B")].
Definition nameless : record := list_to_map [("name", VStr "C")].
Definition post9 : record := list_to_map [("id", VInt 9); ("title", VStr "Q")].
Definition post10 : record := list_to_map [("id", VInt 10); ("title", VStr "P")].
Definition comment100 : record :=
  list_to_map [("id", VInt 100); ("body", VStr "x"); ("email", VStr "e1")].


Definition row_2_10_100 : record :=
  list_to_map
    [("user_id", VInt 2); ("user_name", VStr "B");
     ("post_id", VInt 10); ("post_title", VStr "P");
     ("comment_id", VInt 100); ("comment_body", VStr "x");
     ("comment_author_email", VStr "e1")].

(** A server that answers each URL in one way, whatever came before. *)
Definition api (users : list record) (h : list string) (url : string) : outcome :=
  if String.eqb url USERS_URL then Responded (inr users)
  else if String.eqb url (posts_url (VInt 2)) then Responded (inr [post9; post10])
  else if String.eqb url (comments_url (VInt 10)) then Responded (inr [comment100])
  else Responded (inr []).


(** A server that refuses every request. *)
Definition down (h : list string) (url : string) : outcome :=
  Failed (ClientError "connection refused").

(** A server that fails its first two requests. *)
Definition flaky (h : list string) (url : string) : outcome :=
  if (length h <? 2)%nat then Failed (ClientError "connection reset")
  else api [user1; user2] h url.

(** The world before a run, and the log of one successful fetch. *)
Definition start (f : list string -> string -> outcome) : world :=
  mkWorld f [] [] [] None.

Definition fetched (url : string) : list log_entry :=
  [InfoFetching url; InfoFetched url].


Definition after_users (users : list record) : world :=
  mkWorld (api users) [USERS_URL] [] (fetched USERS_URL) None.


Definition after_task : world :=
  mkWorld (api [])
    [posts_url (VInt 2); comments_url (VInt 10); comments_url (VInt 9)] []
    (fetched (posts_url (VInt 2)) ++ fetched (comments_url (VInt 10)) ++
     fetched (comments_url (VInt 9)))
    None.

Definition after_collect : world :=
  mkWorld (api [user1; user2])
    [USERS_URL; posts_url (VInt 2); comments_url (VInt 10); comments_url (VInt 9)]
    []
    (fetched USERS_URL ++ fetched (posts_url (VInt 2)) ++
     fetched (comments_url (VInt 10)) ++ fetched (comments_url (VInt 9)))
    None.




Definition after_main : world :=
  do_log (set_output after_collect
            [map VStr fieldnames; cells row_2_10_100])
         (InfoWritten OUTPUT_CSV_PATH).

(** ** Facts about the sort *)

Lemma rbind_inr {A B} (r : result A) (f : A -> result B) (b : B) :
  rbind r f = inr b -> exists a, r = inr a /\ f a = inr b.
Proof. destruct r as [e|a]; simpl; [discriminate | eauto]. Qed.

Lemma ltb_asym (a b : string) : String.ltb a b = true -> String.ltb b a = false.
Proof.
  unfold String.ltb. rewrite (String.compare_antisym b a).
  destruct (String.compare a b); simpl; congruence.
Qed.

Lemma py_lt_asym (a b : value) : py_lt a b = inr true -> py_lt b a = inr false.
Proof.
  unfold py_lt.
  destruct a as [|[]|x|x], b as [|[]|y|y]; simpl; intros H;
    try discriminate; try reflexivity; injection H as H; f_equal;
    try (apply Z.ltb_lt in H; apply Z.ltb_ge; lia);
    try (by apply ltb_asym).
Qed.









Lemma insert_asc_head x l r a :
  insert_asc x l = inr r ->
  py_lt (sort_key x) (sort_key a) = inr false ->
  HdRel (fun a b => py_lt (sort_key b) (sort_key a) = inr false) a l ->
  HdRel (fun a b => py_lt (sort_key b) (sort_key a) = inr false) a r.
Proof.
  destruct l as [|y l]; simpl; intros H Hx Hl.
  - injection H as <-. by constructor.
  - apply rbind_inr in H as (lt & _ & H). destruct lt.
    + apply rbind_inr in H as (r' & _ & H). injection H as <-.
      constructor. by inversion Hl.
    + injection H as <-. by constructor.
Qed.

Lemma insert_asc_sorted x l r :
  insert_asc x l = inr r -> ascending l -> ascending r.
Proof.
  unfold ascending. revert r. induction l as [|y l IH]; simpl; intros r H Hs.
  - injection H as <-. repeat constructor.
  - apply rbind_inr in H as (lt & Hlt & H). destruct lt.
    + apply rbind_inr in H as (r' & Hr' & H). injection H as <-.
      inversion Hs as [|? ? Hs' Hhd]; subst. constructor; [by apply IH|].
      eapply insert_asc_head; eauto. by apply py_lt_asym.
    + injection H as <-. constructor; [done|]. by constructor.
Qed.

Lemma sort_asc_sorted l r : sort_asc l = inr r -> ascending r.
Proof.
  revert r. induction l as [|x l IH]; simpl; intros r H.
  - injection H as <-. constructor.
  - apply rbind_inr in H as (r' & Hr' & H).
    eapply insert_asc_sorted; eauto.
Qed.

Lemma Sorted_snoc {A} (R : A -> A -> Prop) l x :
  Sorted R l -> (forall y, last l = Some y -> R y x) -> Sorted R (l ++ [x]).
Proof.
  induction l as [|a l IH]; simpl; intros Hs Hl.
  - repeat constructor.
  - inversion Hs as [|? ? Hs' Hhd]; subst. constructor.
    + apply IH; [done|]. intros y Hy. apply Hl.
      destruct l; [discriminate|]. done.
    + destruct l as [|b l]; simpl.
      * constructor. by apply Hl.
      * constructor. by inversion Hhd.
Qed.

Lemma Sorted_rev {A} (R : A -> A -> Prop) l :
  Sorted R l -> Sorted (fun a b => R b a) (rev l).
Proof.
  induction l as [|a l IH]; simpl; intros Hs; [constructor|].
  inversion Hs as [|? ? Hs' Hhd]; subst.
  apply Sorted_snoc; [by apply IH|].
  intros y Hy. destruct l as [|b l]; [discriminate|].
  simpl in Hy. rewrite last_snoc in Hy. injection Hy as <-. by inversion Hhd.
Qed.

Lemma sorted_reverse_descending l r : sorted_reverse l = inr r -> descending r.
Proof.
  unfold sorted_reverse, descending. intros H.
  apply rbind_inr in H as (r' & Hr' & H). injection H as <-.
  apply (Sorted_rev _ _ (sort_asc_sorted _ _ Hr')).
Qed.

Lemma Sorted_take {A} (R : A -> A -> Prop) n l : Sorted R l -> Sorted R (take n l).
Proof.
  revert n. induction l as [|a l IH]; intros [|n] Hs; simpl; try constructor.
  - inversion Hs; subst. by apply IH.
  - inversion Hs as [|? ? Hs' Hhd]; subst.
    destruct l as [|b l], n; simpl; constructor. by inversion Hhd.
Qed.

(** *** Records with integer ids *)

Lemma has_int_id_key r : has_int_id r -> sort_key r = VInt (id_of r).
Proof.
  intros [z Hz]. unfold id_of, sort_key, py_get. by rewrite Hz.
Qed.








(** *** When the sort raises *)










(** *** Running coroutines *)

Lemma exec_bind {A B} (m : prog A) (f : A -> prog B) w :
  exec (bind m f) w =
  match exec m w with
  | (inl e, w') => (inl e, w')
  | (inr a, w') => exec (f a) w'
  end.
Proof.
  revert w. induction m as [a|e|url k IH|s k IH|l k IH]; intros w; simpl; auto.
Qed.

Lemma exec_lift {A} (r : result A) w : exec (lift r) w = (r, w).
Proof. by destruct r. Qed.

Lemma valid_spec data fields :
  valid data fields = true <->
  forall f, In f fields -> exists v, data !! f = Some v /\ v <> VNull.
Proof.
  unfold valid. rewrite forallb_forall. split; intros H f Hf.
  - specialize (H f Hf). apply andb_prop in H as [H1 H2].
    unfold py_in, py_get in *. destruct (data !! f) as [v|]; [|discriminate].
    exists v. split; [done|]. by destruct v.
  - destruct (H f Hf) as (v & Hv & Hn). unfold py_in, py_get. rewrite Hv.
    by destruct v.
Qed.

Lemma exec_validate_data data fields w :
  exists w', exec (validate_data data fields) w = (inr (valid data fields), w').
Proof.
  induction fields as [|f fields IH]; simpl; [eauto|].
  destruct (py_in f data); simpl; [|eauto].
  destruct (is_None (py_get data f)); simpl; eauto.
Qed.

(** *** The evenness filter *)

Lemma even_id_int u : has_int_id u -> even_id u = inr (Z.even (id_of u)).
Proof.
  intros Hu. unfold even_id. fold (sort_key u).
  rewrite (has_int_id_key _ Hu). simpl. by rewrite Zeven_mod.
Qed.

Lemma comprehension_even_int users :
  Forall has_int_id users ->
  comprehension even_id users = inr (List.filter (fun u => Z.even (id_of u)) users).
Proof.
  induction 1 as [|u users Hu _ IH]; simpl; [done|].
  rewrite (even_id_int _ Hu), IH. simpl. by destruct (Z.even (id_of u)).
Qed.

Lemma even_id_lacks u : lacks_id u -> even_id u = inl TypeError.
Proof.
  intros [H|H]; unfold even_id, py_get; by rewrite H.
Qed.

Lemma comprehension_lacks users :
  Exists lacks_id users -> exists e, comprehension even_id users = inl e.
Proof.
  induction 1 as [u users Hu|u users _ [e IH]]; simpl.
  - rewrite (even_id_lacks _ Hu). simpl. eauto.
  - destruct (even_id u); simpl; [eauto|]. rewrite IH. simpl. eauto.
Qed.

Lemma comprehension_lacks_TypeError users :
  Exists lacks_id users ->
  Forall (fun u => has_int_id u \/ lacks_id u) users ->
  comprehension even_id users = inl TypeError.
Proof.
  induction 1 as [u users Hu|u users _ IH]; simpl; intros Hall.
  - by rewrite (even_id_lacks _ Hu).
  - inversion Hall as [|? ? [Hu|Hu] Hall']; subst.
    + rewrite (even_id_int _ Hu). simpl. by rewrite (IH Hall').
    + by rewrite (even_id_lacks _ Hu).
Qed.
(** *** What a coroutine can return or raise *)

Lemma frame_refl w : frame w w.
Proof. by split. Qed.

Lemma frame_trans w1 w2 w3 : frame w1 w2 -> frame w2 w3 -> frame w1 w3.
Proof. intros [H1 H2] [H3 H4]. split; congruence. Qed.

Lemma exec_frame {A} (m : prog A) w r w' : exec m w = (r, w') -> frame w w'.
Proof.
  revert w. induction m as [a|e|url k IH|s k IH|l k IH]; intros w; simpl; intros H.
  - injection H as _ <-. apply frame_refl.
  - injection H as _ <-. apply frame_refl.
  - apply IH in H. destruct H as [H1 H2]. by split.
  - apply IH in H. destruct H as [H1 H2]. by split.
  - apply IH in H. destruct H as [H1 H2]. by split.
Qed.

Lemma exec_returns {A} (m : prog A) w a w' :
  exec m w = (inr a, w') ->
  exists p, returns (served_by (net w)) m p a /\ history w' = history w ++ p.
Proof.
  revert w. induction m as [b|e|url k IH|s k IH|l k IH]; intros w; simpl; intros H.
  - injection H as <- <-. exists []. split; [constructor | by rewrite app_nil_r].
  - discriminate.
  - destruct (IH _ _ H) as (p & Hp & Hh). simpl in *. exists (url :: p). split.
    + econstructor; [by eexists | done].
    + by rewrite Hh, <- app_assoc.
  - destruct (IH _ H) as (p & Hp & Hh). exists p. split; [by constructor | done].
  - destruct (IH _ H) as (p & Hp & Hh). exists p. split; [by constructor | done].
Qed.

Lemma exec_raises {A} (m : prog A) w e w' :
  exec m w = (inl e, w') ->
  exists p, raises (served_by (net w)) m p e /\ history w' = history w ++ p.
Proof.
  revert w. induction m as [b|e'|url k IH|s k IH|l k IH]; intros w; simpl; intros H.
  - discriminate.
  - injection H as <- <-. exists []. split; [constructor | by rewrite app_nil_r].
  - destruct (IH _ _ H) as (p & Hp & Hh). simpl in *. exists (url :: p). split.
    + econstructor; [by eexists | done].
    + by rewrite Hh, <- app_assoc.
  - destruct (IH _ H) as (p & Hp & Hh). exists p. split; [by constructor | done].
  - destruct (IH _ H) as (p & Hp & Hh). exists p. split; [by constructor | done].
Qed.

Lemma returns_bind {A B} srv (m : prog A) (f : A -> prog B) p b :
  returns srv (bind m f) p b ->
  exists a p1 p2, p = p1 ++ p2 /\ returns srv m p1 a /\ returns srv (f a) p2 b.
Proof.
  revert p. induction m as [a|e|url k IH|s k IH|l k IH]; simpl; intros p H.
  - exists a, [], p. split; [done|]. split; [constructor | done].
  - inversion H.
  - inversion H as [|? ? o q ? Ho Hk| |]; subst.
    destruct (IH _ _ Hk) as (a & p1 & p2 & -> & Ha & Hb).
    exists a, (url :: p1), p2. split; [done|]. split; [by econstructor | done].
  - inversion H as [| |? ? q ? Hk|]; subst.
    destruct (IH _ Hk) as (a & p1 & p2 & -> & Ha & Hb).
    exists a, p1, p2. split; [done|]. split; [by constructor | done].
  - inversion H as [| | |? ? q ? Hk]; subst.
    destruct (IH _ Hk) as (a & p1 & p2 & -> & Ha & Hb).
    exists a, p1, p2. split; [done|]. split; [by constructor | done].
Qed.


Lemma returns_lift {A} srv (r : result A) p a :
  returns srv (lift r) p a -> r = inr a /\ p = [].
Proof. destruct r; simpl; inversion 1; by subst. Qed.


Lemma returns_try {A} srv (m : prog A) p r :
  returns srv (try_ m) p r ->
  match r with inr a => returns srv m p a | inl e => raises srv m p e end.
Proof.
  revert p. induction m as [a|e|url k IH|s k IH|l k IH]; simpl; intros p H.
  - inversion H; subst. constructor.
  - inversion H; subst. constructor.
  - inversion H as [|? ? o q ? Ho Hk| |]; subst. specialize (IH _ _ Hk).
    destruct r; by econstructor.
  - inversion H as [| |? ? q ? Hk|]; subst. specialize (IH _ Hk).
    destruct r; by constructor.
  - inversion H as [| | |? ? q ? Hk]; subst. specialize (IH _ Hk).
    destruct r; by constructor.
Qed.


Lemma returns_validate_data srv data fields p b :
  returns srv (validate_data data fields) p b -> b = valid data fields /\ p = [].
Proof.
  induction fields as [|f fields IH]; simpl; intros H.
  - by inversion H.
  - destruct (py_in f data); simpl in *.
    + destruct (is_None (py_get data f)); simpl in *; [|by apply IH].
      inversion H as [| | |? ? ? ? Hk]; subst. by inversion Hk.
    + inversion H as [| | |? ? ? ? Hk]; subst. by inversion Hk.
Qed.

Lemma raises_validate_data srv data fields p e :
  ~ raises srv (validate_data data fields) p e.
Proof.
  induction fields as [|f fields IH]; simpl; intros H.
  - inversion H.
  - destruct (py_in f data); simpl in *.
    + destruct (is_None (py_get data f)); simpl in *; [|by apply IH].
      inversion H as [| | |? ? ? ? Hk]; subst. inversion Hk.
    + inversion H as [| | |? ? ? ? Hk]; subst. inversion Hk.
Qed.

Lemma returns_functional {A} srv (m : prog A) p a p' a' :
  functional srv -> returns srv m p a -> returns srv m p' a' -> a = a'.
Proof.
  intros Hf H. revert p' a'.
  induction H as [a|url k o p a Ho Hk IH|s k p a Hk IH|l k p a Hk IH];
    intros p' a' H'.
  - by inversion H'.
  - inversion H' as [|? ? o' ? ? Ho' Hk'| |]; subst.
    rewrite <- (Hf _ _ _ Ho Ho') in Hk'. by eapply IH.
  - inversion H'; subst. by eapply IH.
  - inversion H'; subst. by eapply IH.
Qed.

Lemma returns_raises_functional {A} srv (m : prog A) p a p' e :
  functional srv -> returns srv m p a -> raises srv m p' e -> False.
Proof.
  intros Hf H. revert p'.
  induction H as [a|url k o p a Ho Hk IH|s k p a Hk IH|l k p a Hk IH];
    intros p' H'.
  - inversion H'.
  - inversion H' as [|? ? o' ? ? Ho' Hk'| |]; subst.
    rewrite <- (Hf _ _ _ Ho Ho') in Hk'. by eapply IH.
  - inversion H'; subst. by eapply IH.
  - inversion H'; subst. by eapply IH.
Qed.

(** *** The interleaving *)

Lemma later_of_refl {A} srv (t : prog A) : later_of srv t [] t.
Proof. by split. Qed.

Lemma step_task_spec {A} (t : prog A) w t' w' :
  step_task t w = (t', w') ->
  frame w w' /\
  exists new, history w' = history w ++ new /\
              later_of (served_by (net w)) t new t'.
Proof.
  destruct t as [a|e|url k|s k|l k]; simpl; intros H; injection H as <- <-.
  - split; [apply frame_refl|]. exists [].
    split; [by rewrite app_nil_r | apply later_of_refl].
  - split; [apply frame_refl|]. exists [].
    split; [by rewrite app_nil_r | apply later_of_refl].
  - split; [by split|]. exists [url]. split; [done|].
    split; intros; simpl; econstructor; eauto; by eexists.
  - split; [by split|]. exists []. split; [by rewrite app_nil_r|].
    split; intros; by constructor.
  - split; [by split|]. exists []. split; [by rewrite app_nil_r|].
    split; intros; by constructor.
Qed.

Lemma Forall3_later_refl {A} srv (ts : list (prog A)) :
  Forall3 (later_of srv) ts (replicate (length ts) []) ts.
Proof.
  induction ts; simpl; constructor; [apply later_of_refl | done].
Qed.

Lemma concat_replicate_nil {A} n : concat (replicate n ([] : list A)) = [].
Proof. induction n; simpl; auto. Qed.

Lemma step_nth_spec {A} n (ts : list (prog A)) w ts' w' :
  step_nth n ts w = (ts', w') ->
  frame w w' /\
  exists news, history w' = history w ++ concat news /\
               Forall3 (later_of (served_by (net w))) ts news ts'.
Proof.
  revert n ts' w'. induction ts as [|t ts IH]; intros n ts' w'; simpl; intros H.
  - injection H as <- <-. split; [apply frame_refl|]. exists [].
    split; [by rewrite app_nil_r | constructor].
  - destruct (is_done t).
    + destruct (step_nth n ts w) as [ts1 w1] eqn:E. injection H as <- <-.
      destruct (IH _ _ _ E) as (Hf & news & Hh & Hl). split; [done|].
      exists ([] :: news). split; [done|].
      constructor; [apply later_of_refl | done].
    + destruct n as [|n].
      * destruct (step_task t w) as [t1 w1] eqn:E. injection H as <- <-.
        destruct (step_task_spec _ _ _ _ E) as (Hf & new & Hh & Hl).
        split; [done|]. exists (new :: replicate (length ts) []). split.
        -- simpl. by rewrite concat_replicate_nil, app_nil_r.
        -- constructor; [done | apply Forall3_later_refl].
      * destruct (step_nth n ts w) as [ts1 w1] eqn:E. injection H as <- <-.
        destruct (IH _ _ _ E) as (Hf & news & Hh & Hl). split; [done|].
        exists ([] :: news). split; [done|].
        constructor; [apply later_of_refl | done].
Qed.

Lemma first_raised_raises {A} srv (ts : list (prog A)) e :
  first_raised ts = Some e -> Exists (fun t => exists p, raises srv t p e) ts.
Proof.
  induction ts as [|t ts IH]; simpl; [discriminate|].
  destruct t; intros H; try (right; by apply IH).
  injection H as ->. left. eexists. constructor.
Qed.

Lemma results_of_returns {A} srv (ts : list (prog A)) rs :
  results_of ts = Some rs ->
  Forall3 (returns srv) ts (replicate (length ts) []) rs.
Proof.
  revert rs. induction ts as [|t ts IH]; simpl; intros rs H.
  - injection H as <-. constructor.
  - destruct t; try discriminate.
    destruct (results_of ts) as [rs'|]; [|discriminate].
    injection H as <-. constructor; [constructor | by apply IH].
Qed.

Lemma Forall3_later_returns {A} srv (ts ts1 : list (prog A)) news ps1 rs :
  Forall3 (later_of srv) ts news ts1 -> Forall3 (returns srv) ts1 ps1 rs ->
  Forall3 (returns srv) ts (zip_with app news ps1) rs.
Proof.
  intros H. revert ps1 rs.
  induction H as [|t new t1 ts news ts1 Hl _ IH]; intros ps1 rs H';
    inversion H'; subst; simpl; constructor; [by apply Hl | by apply IH].
Qed.

Lemma Forall3_later_raises {A} srv (ts ts1 : list (prog A)) news e :
  Forall3 (later_of srv) ts news ts1 ->
  Exists (fun t => exists p, raises srv t p e) ts1 ->
  Exists (fun t => exists p, raises srv t p e) ts.
Proof.
  induction 1 as [|t new t1 ts news ts1 Hl _ IH]; intros H'; inversion H'; subst.
  - left. destruct H0 as [p Hp]. exists (new ++ p). by apply Hl.
  - right. by apply IH.
Qed.

Lemma Exists_zip_with_app {A B C} (P : B -> list string -> C -> Prop)
    (ts : list A) (news ps1 : list (list string)) (ts1 : list B) (rs : list C)
    (Q : A -> list string -> B -> Prop) url :
  Forall3 Q ts news ts1 -> Forall3 P ts1 ps1 rs ->
  In url (concat news) \/ Exists (fun p => In url p) ps1 ->
  Exists (fun p => In url p) (zip_with app news ps1).
Proof.
  intros H. revert ps1 rs.
  induction H as [|t new t1 ts news ts1 _ _ IH]; intros ps1 rs H' Hin;
    inversion H'; subst; simpl in *.
  - destruct Hin as [[]|Hin]. inversion Hin.
  - destruct Hin as [Hin|Hin].
    + apply in_app_or in Hin as [Hin|Hin].
      * left. apply in_or_app. by left.
      * right. eapply IH; eauto.
    + inversion Hin; subst.
      * left. apply in_or_app. by right.
      * right. eapply IH; eauto.
Qed.

(** What [gather] hands back: the results are those of the tasks, in task
    order, and every request made on the way lies on the path of a task. *)
Lemma gather_spec {A} fuel sched tick (ts : list (prog A)) w r w' :
  gather fuel sched tick ts w = Some (r, w') ->
  frame w w' /\
  match r with
  | inr rs =>
      exists ps, Forall3 (returns (served_by (net w))) ts ps rs /\
        forall url, In url (history w') ->
          In url (history w) \/ Exists (fun p => In url p) ps
  | inl e => Exists (fun t => exists p, raises (served_by (net w)) t p e) ts
  end.
Proof.
  revert tick ts w.
  induction fuel as [|fuel IH]; intros tick ts w; simpl;
    destruct (first_raised ts) as [e|] eqn:Er;
    try (intros H; injection H as <- <-; split;
         [apply frame_refl | by apply first_raised_raises]);
    destruct (results_of ts) as [rs|] eqn:Es;
    try (intros H; injection H as <- <-; split; [apply frame_refl|];
         eexists; split; [by apply results_of_returns | by left]);
    try discriminate.
  destruct (step_nth _ ts w) as [ts1 w1] eqn:E. intros H.
  destruct (step_nth_spec _ _ _ _ _ E) as (Hf & news & Hh & Hl).
  destruct (IH _ _ _ H) as [Hf' Hr]. split; [by eapply frame_trans|].
  destruct Hf as [Hnet _]. rewrite Hnet in Hr. destruct r as [e|rs].
  - by eapply Forall3_later_raises.
  - destruct Hr as (ps1 & Hps1 & Hcov). exists (zip_with app news ps1).
    split; [by eapply Forall3_later_returns|].
    intros url Hin. destruct (Hcov _ Hin) as [Hin1|Hin1].
    + rewrite Hh in Hin1. apply in_app_or in Hin1 as [Hin1|Hin1]; [by left|].
      right. eapply Exists_zip_with_app; eauto.
    + right. eapply Exists_zip_with_app; eauto.
Qed.

(** *** Termination of the interleaving *)

Lemma pending_pos {A} (ts : list (prog A)) :
  first_raised ts = None -> results_of ts = None -> 0 < pending ts.
Proof.
  unfold pending. induction ts as [|t ts IH]; simpl; [discriminate|].
  destruct t; simpl; intros Hr Hs; try discriminate; try lia.
  destruct (results_of ts); [discriminate|]. by apply IH.
Qed.

Lemma step_nth_steps {A} n (ts : list (prog A)) ns w ts' w' :
  first_raised ts = None -> n < pending ts -> Forall2 steps_le ns ts ->
  step_nth n ts w = (ts', w') ->
  exists ns', Forall2 steps_le ns' ts' /\ S (sum_list ns') <= sum_list ns.
Proof.
  unfold pending. intros Hr Hn Hs. revert n ts' w' Hr Hn.
  induction Hs as [|m t ns ts Hm Hs IH]; intros n ts' w'; simpl; intros Hr Hn H.
  - lia.
  - destruct t as [a|e|url k|s k|l k]; simpl in *; try discriminate.
    + destruct (step_nth n ts w) as [ts1 w1] eqn:E. injection H as <- <-.
      destruct (IH _ _ _ Hr Hn E) as (ns' & Hns' & Hsum).
      exists (m :: ns'). split; [by constructor | simpl; lia].
    + destruct n as [|n].
      * injection H as <- <-. inversion Hm as [| |m' ? ? Hk| |]; subst.
        exists (m' :: ns). split; [by constructor | simpl; lia].
      * destruct (step_nth n ts w) as [ts1 w1] eqn:E. injection H as <- <-.
        destruct (IH n ts1 w1 Hr) as (ns' & Hns' & Hsum); [lia | done |].
        exists (m :: ns'). split; [by constructor | simpl; lia].
    + destruct n as [|n].
      * injection H as <- <-. inversion Hm as [| | |m' ? ? Hk|]; subst.
        exists (m' :: ns). split; [by constructor | simpl; lia].
      * destruct (step_nth n ts w) as [ts1 w1] eqn:E. injection H as <- <-.
        destruct (IH n ts1 w1 Hr) as (ns' & Hns' & Hsum); [lia | done |].
        exists (m :: ns'). split; [by constructor | simpl; lia].
    + destruct n as [|n].
      * injection H as <- <-. inversion Hm as [| | | |m' ? ? Hk]; subst.
        exists (m' :: ns). split; [by constructor | simpl; lia].
      * destruct (step_nth n ts w) as [ts1 w1] eqn:E. injection H as <- <-.
        destruct (IH n ts1 w1 Hr) as (ns' & Hns' & Hsum); [lia | done |].
        exists (m :: ns'). split; [by constructor | simpl; lia].
Qed.

Lemma gather_total {A} fuel sched tick (ts : list (prog A)) ns w :
  Forall2 steps_le ns ts -> sum_list ns <= fuel ->
  exists r w', gather fuel sched tick ts w = Some (r, w').
Proof.
  revert tick ts ns w.
  induction fuel as [|fuel IH]; intros tick ts ns w Hs Hsum; simpl;
    destruct (first_raised ts) as [e|] eqn:Er; eauto;
    destruct (results_of ts) as [rs|] eqn:Es; eauto;
    pose proof (pending_pos _ Er Es) as Hp;
    assert (sched tick mod pending ts < pending ts) as Hmod
      by (apply Nat.mod_upper_bound; lia);
    destruct (step_nth (sched tick mod pending ts) ts w) as [ts1 w1] eqn:E;
    destruct (step_nth_steps _ _ _ _ _ _ Er Hmod Hs E) as (ns' & Hns' & Hlt).
  - lia.
  - eapply IH; [exact Hns' | lia].
Qed.
(** *** The fetcher and its retries *)

Lemma exec_try {A} (m : prog A) w :
  exec (try_ m) w = (inr (fst (exec m w)), snd (exec m w)).
Proof.
  revert w. induction m as [a|e|url k IH|s k IH|l k IH]; intros w; simpl; auto.
Qed.

Lemma retry_loop_unfold {A} wait n k (fn : prog A) :
  retry_loop wait n k fn =
  bind (try_ fn) (fun r =>
    match r with
    | inr a => Ret a
    | inl e =>
        match n with
        | O => Raise (RetryError e)
        | S n' => Sleep (wait k) (retry_loop wait n' (S k) fn)
        end
    end).
Proof. destruct n; reflexivity. Qed.

Lemma exec_retry_loop {A} wait n k (fn : prog A) w :
  exec (retry_loop wait n k fn) w =
  match exec fn w with
  | (inr a, w') => (inr a, w')
  | (inl e, w') =>
      match n with
      | O => (inl (RetryError e), w')
      | S n' => exec (retry_loop wait n' (S k) fn) (do_sleep w' (wait k))
      end
  end.
Proof.
  rewrite retry_loop_unfold, exec_bind, exec_try.
  destruct (exec fn w) as [[e|a] w']; destruct n; reflexivity.
Qed.

Lemma exec_fetch_json_once url w :
  exists w',
    exec (fetch_json_once url) w = (attempt_result (net w (history w) url), w') /\
    net w' = net w /\ history w' = history w ++ [url] /\
    slept w' = slept w /\ output_csv w' = output_csv w.
Proof.
  unfold fetch_json_once. simpl.
  destruct (net w (history w) url) as [e|[e|js]]; simpl;
    try destruct (is_client_error e); simpl; eexists; repeat split.
Qed.

Lemma returns_fetch_json_once srv url p js :
  returns srv (fetch_json_once url) p js ->
  p = [url] /\ srv url (Responded (inr js)).
Proof.
  unfold fetch_json_once. intros H.
  inversion H as [| | |? ? ? ? H1]; subst; clear H.
  inversion H1 as [|? ? o q ? Ho H2| |]; subst; clear H1.
  destruct o as [e|[e|js']].
  - destruct (is_client_error e); inversion H2; subst;
      match goal with H : returns _ (Raise _) _ _ |- _ => inversion H end.
  - inversion H2 as [| | |? ? ? ? H3]; subst.
    destruct (is_client_error e); inversion H3; subst;
      match goal with H : returns _ (Raise _) _ _ |- _ => inversion H end.
  - inversion H2 as [| | |? ? ? ? H3]; subst. inversion H3; subst. done.
Qed.

Lemma raises_fetch_json_once srv url p e :
  raises srv (fetch_json_once url) p e ->
  p = [url] /\ exists o, srv url o /\ attempt_result o = inl e.
Proof.
  unfold fetch_json_once. intros H.
  inversion H as [| | |? ? ? ? H1]; subst; clear H.
  inversion H1 as [|? ? o q ? Ho H2| |]; subst; clear H1.
  destruct o as [e'|[e'|js']]; simpl in *.
  - destruct (is_client_error e'); inversion H2; subst;
      try match goal with H : raises _ (Raise _) _ _ |- _ => inversion H; subst end;
      (split; [done|]); by exists (Failed e).
  - inversion H2 as [| | |? ? ? ? H3]; subst.
    destruct (is_client_error e'); inversion H3; subst;
      try match goal with H : raises _ (Raise _) _ _ |- _ => inversion H; subst end;
      (split; [done|]); by exists (Responded (inl e)).
  - inversion H2 as [| | |? ? ? ? H3]; subst. inversion H3.
Qed.

Lemma returns_retry_fetch srv wait url n k p js :
  returns srv (retry_loop wait n k (fetch_json_once url)) p js ->
  srv url (Responded (inr js)) /\ Forall (eq url) p.
Proof.
  revert k p. induction n as [|n IH]; intros k p H;
    rewrite retry_loop_unfold in H;
    apply returns_bind in H as (r & p1 & p2 & -> & Hr & H);
    apply returns_try in Hr; destruct r as [e|a].
  - inversion H.
  - inversion H; subst. apply returns_fetch_json_once in Hr as [-> Hs].
    split; [done | by repeat constructor].
  - inversion H as [| |? ? ? ? H1|]; subst.
    apply raises_fetch_json_once in Hr as [-> _].
    destruct (IH _ _ H1) as [Hs Hp]. split; [done | by constructor].
  - inversion H; subst. apply returns_fetch_json_once in Hr as [-> Hs].
    split; [done | by repeat constructor].
Qed.


Lemma returns_fetch_json srv url p js :
  returns srv (fetch_json url) p js ->
  srv url (Responded (inr js)) /\ Forall (eq url) p.
Proof. apply returns_retry_fetch. Qed.


(** *** Counting effects *)

Lemma steps_le_mono {A} n n' (m : prog A) : steps_le n m -> n <= n' -> steps_le n' m.
Proof.
  intros H. revert n'.
  induction H as [n a|n e|n url k _ IH|n s k _ IH|n l k _ IH]; intros n' Hn;
    try constructor; (destruct n' as [|n']; [lia|]); constructor;
    intros; apply IH; lia.
Qed.

Lemma steps_le_bind {A B} a b (m : prog A) (f : A -> prog B) :
  steps_le a m ->
  (forall x p, returns (fun _ _ => True) m p x -> steps_le b (f x)) ->
  steps_le (a + b) (bind m f).
Proof.
  intros H. induction H as [n x|n e|n url k _ IH|n s k _ IH|n l k _ IH];
    intros Hf; simpl.
  - eapply steps_le_mono; [eapply Hf; constructor | lia].
  - constructor.
  - constructor. intros o. apply IH. intros x p Hx. eapply Hf.
    by econstructor.
  - constructor. apply IH. intros x p Hx. eapply Hf. by constructor.
  - constructor. apply IH. intros x p Hx. eapply Hf. by constructor.
Qed.

Lemma steps_le_try {A} n (m : prog A) : steps_le n m -> steps_le n (try_ m).
Proof. induction 1; simpl; by constructor. Qed.

Lemma steps_le_lift {A} n (r : result A) : steps_le n (lift r).
Proof. destruct r; constructor. Qed.

Lemma steps_le_fetch_json_once url : steps_le 4 (fetch_json_once url).
Proof.
  unfold fetch_json_once. constructor. constructor. intros [e|[e|js]].
  - destruct (is_client_error e); repeat constructor.
  - constructor. destruct (is_client_error e); repeat constructor.
  - repeat constructor.
Qed.

Lemma steps_le_retry_loop {A} wait n k c (fn : prog A) :
  steps_le c fn -> steps_le (c + n * S c) (retry_loop wait n k fn).
Proof.
  intros Hc. revert k.
  induction n as [|n IH]; intros k; rewrite retry_loop_unfold.
  - apply steps_le_bind; [by apply steps_le_try|].
    intros [e|a] _ _; constructor.
  - apply steps_le_bind; [by apply steps_le_try|].
    intros [e|a] _ _; constructor. apply IH.
Qed.

Lemma steps_le_fetch_json url : steps_le fetch_steps (fetch_json url).
Proof.
  apply (steps_le_retry_loop _ 2 1 4). apply steps_le_fetch_json_once.
Qed.

(** *** The shape of a user's rows *)

Lemma latest_from_descending srv url n out : latest_from srv url n out -> descending out.
Proof.
  intros (raw & s & _ & Hs & ->). apply Sorted_take.
  by eapply sorted_reverse_descending.
Qed.

Lemma latest_from_length srv url n out : latest_from srv url n out -> length out <= n.
Proof.
  intros (raw & s & _ & _ & ->). unfold slice_to. rewrite length_take. lia.
Qed.

Lemma served_ok_path srv url p js :
  srv url (Responded (inr js)) -> Forall (eq url) p -> Forall (served_ok srv) p.
Proof.
  intros Hs Hp. eapply Forall_impl; [exact Hp|].
  intros ? <-. by exists js.
Qed.

Lemma returns_get_latest_posts srv v p out :
  returns srv (get_latest_posts_for_user v) p out ->
  latest_from srv (posts_url v) 5 out /\ Forall (served_ok srv) p.
Proof.
  unfold get_latest_posts_for_user. intros H.
  apply returns_bind in H as (raw & p1 & p2 & -> & H1 & H).
  apply returns_bind in H as (s & p3 & p4 & -> & H2 & H).
  apply returns_fetch_json in H1 as [Hs Hp].
  apply returns_lift in H2 as [Hsort ->]. inversion H; subst.
  rewrite !app_nil_r. split; [by exists raw, s | by eapply served_ok_path].
Qed.

Lemma returns_get_latest_comments srv v p out :
  returns srv (get_latest_comments_for_post v) p out ->
  latest_from srv (comments_url v) 3 out /\ Forall (served_ok srv) p.
Proof.
  unfold get_latest_comments_for_post. intros H.
  apply returns_bind in H as (raw & p1 & p2 & -> & H1 & H).
  apply returns_bind in H as (s & p3 & p4 & -> & H2 & H).
  apply returns_fetch_json in H1 as [Hs Hp].
  apply returns_lift in H2 as [Hsort ->]. inversion H; subst.
  rewrite !app_nil_r. split; [by exists raw, s | by eapply served_ok_path].
Qed.

Lemma returns_comments_loop srv uid user post comments acc p out :
  returns srv (comments_loop uid user post comments acc) p out ->
  p = [] /\
  exists block,
    out = acc ++ block /\
    Forall2 (fun c row => output_row uid user post c = inr row)
      (List.filter (fun c => valid c ["id"; "body"; "email"]) comments) block.
Proof.
  revert acc p. induction comments as [|c comments IH]; intros acc p H;
    cbn [comments_loop] in H.
  - inversion H; subst. split; [done|]. exists [].
    split; [by rewrite app_nil_r | constructor].
  - apply returns_bind in H as (ok & p1 & p2 & -> & Hv & H).
    apply returns_validate_data in Hv as [-> ->]. cbn [List.filter].
    destruct (valid c _); cbn [negb] in H.
    + apply returns_bind in H as (row & p3 & p4 & -> & Hrow & H).
      apply returns_lift in Hrow as [Hrow ->].
      destruct (IH _ _ H) as (-> & block & -> & Hb). split; [done|].
      exists (row :: block). split; [by rewrite <- app_assoc | by constructor].
    + by apply IH.
Qed.

Lemma returns_posts_loop srv uid user posts acc p out :
  returns srv (posts_loop uid user posts acc) p out ->
  Forall (served_ok srv) p /\
  exists blocks,
    out = acc ++ concat blocks /\
    Forall2 (post_block srv uid user)
      (List.filter (fun q => valid q ["id"; "title"]) posts) blocks.
Proof.
  revert acc p. induction posts as [|post posts IH]; intros acc p H;
    cbn [posts_loop] in H.
  - inversion H; subst. split; [constructor|]. exists [].
    split; [by rewrite app_nil_r | constructor].
  - apply returns_bind in H as (ok & p1 & p2 & -> & Hv & H).
    apply returns_validate_data in Hv as [-> ->]. cbn [List.filter].
    destruct (valid post _); cbn [negb] in H.
    + apply returns_bind in H as (pid & p3 & p4 & -> & Hpid & H).
      apply returns_lift in Hpid as [Hpid ->].
      apply returns_bind in H as (comments & p5 & p6 & -> & Hc & H).
      apply returns_get_latest_comments in Hc as [Hc Hp5].
      apply returns_bind in H as (acc' & p7 & p8 & -> & Hl & H).
      apply returns_comments_loop in Hl as (-> & block & -> & Hblock).
      destruct (IH _ _ H) as (Hp8 & blocks & -> & Hblocks). split.
      * simpl. by apply Forall_app.
      * exists (block :: blocks). split; [simpl; by rewrite <- app_assoc|].
        constructor; [|done]. exists pid, comments.
        unfold py_getitem in Hpid. destruct (post !! "id"); [|discriminate].
        injection Hpid as ->. split; [done|]. split; [done|].
        split; [by eapply latest_from_descending | done].
    + by apply IH.
Qed.

Lemma returns_process_user_data srv user p rows :
  returns srv (process_user_data user) p rows ->
  user_block srv user rows /\ Forall (served_ok srv) p.
Proof.
  unfold process_user_data, user_block. intros H.
  apply returns_bind in H as (ok & p1 & p2 & -> & Hv & H).
  apply returns_validate_data in Hv as [-> ->].
  destruct (valid user _); cbn [negb] in H.
  - apply returns_bind in H as (uid & p3 & p4 & -> & Huid & H).
    apply returns_lift in Huid as [Huid ->].
    apply returns_bind in H as (posts & p5 & p6 & -> & Hposts & H).
    apply returns_get_latest_posts in Hposts as [Hposts Hp5].
    apply returns_posts_loop in H as (Hp6 & blocks & -> & Hblocks).
    split; [|simpl; by apply Forall_app].
    exists uid, posts, blocks.
    unfold py_getitem in Huid. destruct (user !! "id"); [|discriminate].
    injection Huid as ->. split; [done|]. split; [done|].
    split; [by eapply latest_from_descending | done].
  - inversion H; subst. split; [done | constructor].
Qed.

(** *** Well-formed rows *)

Lemma valid_lookup data fields f :
  valid data fields = true -> In f fields ->
  exists v, data !! f = Some v /\ v <> VNull.
Proof. intros H. by apply valid_spec. Qed.

Lemma output_row_ok uid user post comment row :
  valid user ["id"; "name"] = true -> user !! "id" = Some uid ->
  valid post ["id"; "title"] = true ->
  valid comment ["id"; "body"; "email"] = true ->
  output_row uid user post comment = inr row -> row_ok row.
Proof.
  intros Hu Huid Hp Hc.
  destruct (valid_lookup _ _ "id" Hu) as (uid' & Huid' & Hn0); [simpl; tauto|].
  destruct (valid_lookup _ _ "name" Hu) as (v1 & H1 & Hn1); [simpl; tauto|].
  destruct (valid_lookup _ _ "id" Hp) as (v2 & H2 & Hn2); [simpl; tauto|].
  destruct (valid_lookup _ _ "title" Hp) as (v3 & H3 & Hn3); [simpl; tauto|].
  destruct (valid_lookup _ _ "id" Hc) as (v4 & H4 & Hn4); [simpl; tauto|].
  destruct (valid_lookup _ _ "body" Hc) as (v5 & H5 & Hn5); [simpl; tauto|].
  destruct (valid_lookup _ _ "email" Hc) as (v6 & H6 & Hn6); [simpl; tauto|].
  assert (uid' = uid) as -> by congruence.
  unfold output_row, py_getitem. rewrite H1, H2, H3, H4, H5, H6. cbn [rbind].
  intros H. injection H as <-. split.
  - rewrite !dom_insert_L, dom_empty_L. reflexivity.
  - intros k Hk. simpl in Hk.
    destruct Hk as [<-|[<-|[<-|[<-|[<-|[<-|[<-|[]]]]]]]];
      eexists; (split; [vm_compute; reflexivity | done]).
Qed.

Lemma post_block_ok srv uid user post block :
  valid user ["id"; "name"] = true -> user !! "id" = Some uid ->
  valid post ["id"; "title"] = true ->
  post_block srv uid user post block -> Forall row_ok block.
Proof.
  intros Hu Huid Hp (pid & comments & _ & _ & _ & H).
  remember (List.filter _ comments) as cs eqn:Ecs.
  assert (Forall (fun c => valid c ["id"; "body"; "email"] = true) cs) as Hcs.
  { subst cs. apply List.Forall_forall. intros c Hc.
    by apply List.filter_In in Hc as [_ Hc]. }
  clear Ecs. induction H as [|c row cs block Hrow _ IH]; [constructor|].
  inversion Hcs; subst. constructor; [|by apply IH].
  by eapply output_row_ok.
Qed.

Lemma user_block_ok srv user rows : user_block srv user rows -> Forall row_ok rows.
Proof.
  unfold user_block. destruct (valid user _) eqn:Hu; [|by intros ->].
  intros (uid & posts & blocks & Huid & _ & _ & H & ->).
  remember (List.filter _ posts) as ps eqn:Eps.
  assert (Forall (fun q => valid q ["id"; "title"] = true) ps) as Hps.
  { subst ps. apply List.Forall_forall. intros q Hq.
    by apply List.filter_In in Hq as [_ Hq]. }
  clear Eps. induction H as [|q block ps blocks Hb _ IH]; [constructor|].
  inversion Hps; subst. simpl. apply Forall_app. split; [|by apply IH].
  by eapply post_block_ok.
Qed.

(** A well-formed row is written without error. *)
Lemma dict_to_list_ok row : row_ok row -> exists line, dict_to_list row = inr line.
Proof.
  intros [Hdom _]. unfold dict_to_list.
  destruct (forallb _ _) eqn:E; [eauto|].
  apply not_true_iff_false in E. exfalso. apply E. clear E.
  apply forallb_forall. intros [k v] Hkv. simpl.
  apply bool_decide_eq_true.
  apply list_elem_of_In, elem_of_map_to_list in Hkv.
  assert (k ∈ dom row) as Hk by (apply elem_of_dom; eauto).
  rewrite Hdom in Hk. by apply elem_of_list_to_set in Hk.
Qed.


(** *** Every task is finite *)

Lemma steps_le_validate_data data fields : steps_le 1 (validate_data data fields).
Proof.
  induction fields as [|f fields IH]; simpl; [constructor|].
  destruct (negb (py_in f data) || is_None (py_get data f)); [|done].
  repeat constructor.
Qed.

Lemma steps_le_get_latest_posts v : steps_le fetch_steps (get_latest_posts_for_user v).
Proof.
  unfold get_latest_posts_for_user.
  apply (steps_le_mono (fetch_steps + 0)); [|lia].
  apply steps_le_bind; [apply steps_le_fetch_json|]. intros raw _ _.
  apply (steps_le_bind 0 0); [apply steps_le_lift|]. intros; constructor.
Qed.

Lemma steps_le_get_latest_comments v :
  steps_le fetch_steps (get_latest_comments_for_post v).
Proof.
  unfold get_latest_comments_for_post.
  apply (steps_le_mono (fetch_steps + 0)); [|lia].
  apply steps_le_bind; [apply steps_le_fetch_json|]. intros raw _ _.
  apply (steps_le_bind 0 0); [apply steps_le_lift|]. intros; constructor.
Qed.

Lemma steps_le_comments_loop uid user post comments acc :
  steps_le (length comments) (comments_loop uid user post comments acc).
Proof.
  revert acc. induction comments as [|c comments IH]; intros acc;
    cbn [comments_loop length]; [constructor|].
  apply (steps_le_bind 1 (length comments)); [apply steps_le_validate_data|].
  intros ok _ _. destruct (negb ok); [apply IH|].
  apply (steps_le_bind 0 (length comments)); [apply steps_le_lift|].
  intros; apply IH.
Qed.

Lemma steps_le_posts_loop uid user posts acc :
  steps_le (length posts * (1 + fetch_steps + 3)) (posts_loop uid user posts acc).
Proof.
  revert acc. induction posts as [|post posts IH]; intros acc;
    cbn [posts_loop length]; [constructor|].
  eapply steps_le_mono.
  - apply (steps_le_bind 1 (fetch_steps + (3 + length posts * (1 + fetch_steps + 3))));
      [apply steps_le_validate_data|].
    intros ok _ _.
    set (rest := length posts * (1 + fetch_steps + 3)).
    destruct (negb ok); [eapply steps_le_mono; [apply IH | lia]|].
    apply (steps_le_bind 0 (fetch_steps + (3 + rest))); [apply steps_le_lift|].
    intros pid _ _.
    apply (steps_le_bind fetch_steps (3 + rest));
      [apply steps_le_get_latest_comments|].
    intros comments p Hc.
    apply returns_get_latest_comments in Hc as [Hc _].
    apply latest_from_length in Hc.
    apply (steps_le_bind 3 rest); [|intros; apply IH].
    eapply steps_le_mono; [apply steps_le_comments_loop | done].
  - lia.
Qed.

Lemma steps_le_process_user_data user :
  steps_le process_user_steps (process_user_data user).
Proof.
  unfold process_user_data, process_user_steps.
  set (loop := 5 * (1 + fetch_steps + 3)).
  apply (steps_le_bind 1 (fetch_steps + loop)); [apply steps_le_validate_data|].
  intros ok _ _. destruct (negb ok); [constructor|].
  apply (steps_le_bind 0 (fetch_steps + loop)); [apply steps_le_lift|].
  intros uid _ _.
  apply (steps_le_bind fetch_steps loop); [apply steps_le_get_latest_posts|].
  intros posts p Hp.
  apply returns_get_latest_posts in Hp as [Hp _].
  apply latest_from_length in Hp.
  eapply steps_le_mono; [apply steps_le_posts_loop|].
  apply Nat.mul_le_mono_r. done.
Qed.

Lemma Forall2_steps_tasks users :
  Forall2 steps_le (replicate (length users) process_user_steps)
          (map process_user_data users).
Proof.
  induction users; simpl; constructor; [apply steps_le_process_user_data | done].
Qed.

Lemma sum_list_replicate_eq n c : sum_list (replicate n c) = n * c.
Proof. induction n; simpl; [done | lia]. Qed.

(** The run always ends: the fuel [collect] gives to [gather] is enough. *)
Lemma collect_total sched w : exists r w', collect sched w = Some (r, w').
Proof.
  unfold collect. destruct (exec get_users w) as [[e|users] w1]; [eauto|].
  destruct (gather_total (process_user_steps * length (map process_user_data users))
              sched 0 (map process_user_data users)
              (replicate (length users) process_user_steps) w1) as (r & w2 & ->).
  - apply Forall2_steps_tasks.
  - rewrite sum_list_replicate_eq, length_map. lia.
  - destruct r; eauto.
Qed.

Lemma main_total sched w : exists r w', main sched w = Some (r, w').
Proof.
  unfold main. destruct (collect_total sched w) as (r & w1 & ->).
  destruct r as [e|rows]; [eauto|].
  destruct (write_csv rows w1); eauto.
Qed.

(** *** The run as a whole *)

Lemma collect_spec sched w r w' :
  collect sched w = Some (r, w') ->
  frame w w' /\
  match r with
  | inr rows =>
      exists users blocks ps,
        (exists w1, exec get_users w = (inr users, w1)) /\
        Forall3 (returns (served_by (net w))) (map process_user_data users) ps blocks /\
        Forall2 (user_block (served_by (net w))) users blocks /\
        rows = concat blocks /\
        (forall url, In url (history w') -> ~ In url (history w) ->
                     served_ok (served_by (net w)) url)
  | inl e =>
      (exists w1, exec get_users w = (inl e, w1)) \/
      exists users w1,
        exec get_users w = (inr users, w1) /\
        Exists (fun t => exists p, raises (served_by (net w)) t p e)
               (map process_user_data users)
  end.
Proof.
  unfold collect. destruct (exec get_users w) as [[e|users] w1] eqn:Eu.
  - intros H. injection H as <- <-. split; [by eapply exec_frame | eauto].
  - destruct (gather _ _ _ _ _) as [[[e|blocks] w2]|] eqn:Eg; [| |discriminate];
      intros H; injection H as <- <-;
      pose proof (exec_frame _ _ _ _ Eu) as Hf1;
      destruct (gather_spec _ _ _ _ _ _ _ Eg) as [Hf2 Hg];
      (split; [by eapply frame_trans|]);
      destruct Hf1 as [Hnet _]; rewrite Hnet in Hg; [right; eauto|].
    destruct Hg as (ps & Hret & Hcov).
    exists users, blocks, ps. split; [eauto|]. split; [done|]. split; [|split; [done|]].
    + clear -Hret. revert ps blocks Hret.
      induction users as [|u users IH]; intros ps blocks H; inversion H; subst;
        constructor; [|by eapply IH].
      by eapply returns_process_user_data.
    + intros url Hin Hnin.
      destruct (Hcov _ Hin) as [Hin1|Hin1].
      * unfold get_users in Eu. rewrite exec_bind in Eu.
        destruct (exec (fetch_json USERS_URL) w) as [[e|js] w0] eqn:Ef;
          [discriminate|].
        rewrite exec_lift in Eu.
        apply exec_returns in Ef as (p & Hp & Hh).
        apply returns_fetch_json in Hp as [Hs Hp].
        assert (w0 = w1) as -> by congruence.
        rewrite Hh in Hin1. apply in_app_or in Hin1 as [?|Hin1]; [done|].
        rewrite List.Forall_forall in Hp. rewrite <- (Hp _ Hin1). by eexists.
      * clear -Hret Hin1. revert ps blocks Hret Hin1.
        induction users as [|u users IH]; intros ps blocks Hret Hex;
          inversion Hret as [|? p ? ? ? ? Ht Hret']; subst;
          inversion Hex; subst; [|by eapply IH].
        apply returns_process_user_data in Ht as [_ Hp].
        rewrite List.Forall_forall in Hp. by apply Hp.
Qed.

(** *** One call of the fetcher, attempt by attempt *)

Lemma exec_retry_fetch url n k w :
  exists w1,
    net w1 = net w /\ history w1 = history w ++ [url] /\
    slept w1 = slept w /\ output_csv w1 = output_csv w /\
    exec (retry_loop fetch_wait n k (fetch_json_once url)) w =
    match attempt_result (net w (history w) url) with
    | inr js => (inr js, w1)
    | inl e =>
        match n with
        | O => (inl (RetryError e), w1)
        | S n' =>
            exec (retry_loop fetch_wait n' (S k) (fetch_json_once url))
                 (do_sleep w1 (fetch_wait k))
        end
    end.
Proof.
  destruct (exec_fetch_json_once url w) as (w1 & He & Hn & Hh & Hs & Ho).
  exists w1. repeat (split; [done|]).
  rewrite exec_retry_loop, He.
  by destruct (attempt_result _).
Qed.

Lemma exec_fetch_json url w :
  exists w',
    net w' = net w /\ output_csv w' = output_csv w /\
    match attempt_result (net w (history w) url) with
    | inr js =>
        exec (fetch_json url) w = (inr js, w') /\
        history w' = history w ++ [url] /\ slept w' = slept w
    | inl _ =>
        match attempt_result (net w (history w ++ [url]) url) with
        | inr js =>
            exec (fetch_json url) w = (inr js, w') /\
            history w' = history w ++ [url; url] /\
            slept w' = slept w ++ [4%Z]
        | inl _ =>
            match attempt_result (net w (history w ++ [url; url]) url) with
            | inr js =>
                exec (fetch_json url) w = (inr js, w') /\
                history w' = history w ++ [url; url; url] /\
                slept w' = slept w ++ [4%Z; 4%Z]
            | inl e =>
                exec (fetch_json url) w = (inl (RetryError e), w') /\
                history w' = history w ++ [url; url; url] /\
                slept w' = slept w ++ [4%Z; 4%Z]
            end
        end
    end.
Proof.
  unfold fetch_json, retry. change (3 - 1) with 2.
  assert (fetch_wait 1 = 4%Z) as W1 by reflexivity.
  assert (fetch_wait 2 = 4%Z) as W2 by reflexivity.
  destruct (exec_retry_fetch url 2 1 w) as (w1 & Hn1 & Hh1 & Hs1 & Ho1 & ->).
  destruct (attempt_result (net w (history w) url)) as [e1|js].
  2:{ exists w1. by repeat split. }
  destruct (exec_retry_fetch url 1 2 (do_sleep w1 (fetch_wait 1)))
    as (w2 & Hn2 & Hh2 & Hs2 & Ho2 & ->).
  cbn [do_sleep net history slept output_csv] in *.
  rewrite Hn1, Hh1.
  destruct (attempt_result (net w (history w ++ [url]) url)) as [e2|js].
  2:{ exists w2. rewrite Hh2, Hs2, Hn2, Ho2, Hh1, Hs1, W1, <- app_assoc.
      by repeat split. }
  destruct (exec_retry_fetch url 0 3 (do_sleep w2 (fetch_wait 2)))
    as (w3 & Hn3 & Hh3 & Hs3 & Ho3 & ->).
  cbn [do_sleep net history slept output_csv] in *.
  rewrite Hn2, Hn1, Hh2, Hh1, <- app_assoc. cbn [app].
  exists w3.
  rewrite Hh3, Hs3, Hn3, Ho3, Hh2, Hs2, Hn2, Ho2, Hh1, Hs1, W1, W2, <- !app_assoc.
  destruct (attempt_result _); by repeat split.
Qed.

(** Three failed attempts in a row exhaust the call: it raises
    [RetryError] with the exception of the third attempt. *)
Lemma fetch_json_exhausted url w e1 e2 e3 :
  attempt_result (net w (history w) url) = inl e1 ->
  attempt_result (net w (history w ++ [url]) url) = inl e2 ->
  attempt_result (net w (history w ++ [url; url]) url) = inl e3 ->
  exists w',
    exec (fetch_json url) w = (inl (RetryError e3), w') /\
    slept w' = slept w ++ [4%Z; 4%Z] /\ output_csv w' = output_csv w.
Proof.
  intros H1 H2 H3. destruct (exec_fetch_json url w) as (w' & _ & Ho & H).
  rewrite H1, H2, H3 in H. destruct H as (H & _ & Hs). by exists w'.
Qed.

Lemma fetch_wait_bounds k :
  (4 <= fetch_wait k <= 10)%Z /\ (fetch_wait k <= fetch_wait (S k))%Z.
Proof.
  unfold fetch_wait, wait_exponential.
  assert (2 ^ (Z.of_nat k - 1) <= 2 ^ (Z.of_nat (S k) - 1))%Z.
  { destruct k as [|k]; [done|].
    apply Z.pow_le_mono_r; lia. }
  lia.
Qed.

Lemma output_row_user_id uid user post comment row :
  output_row uid user post comment = inr row -> row !! "user_id" = Some uid.
Proof.
  unfold output_row. intros H.
  repeat (apply rbind_inr in H as (? & _ & H)).
  injection H as <-. vm_compute. reflexivity.
Qed.

Lemma user_block_user_id srv user rows uid :
  user_block srv user rows -> user !! "id" = Some uid ->
  Forall (fun row => row !! "user_id" = Some uid) rows.
Proof.
  unfold user_block. destruct (valid user _); [|by intros ->].
  intros (uid' & posts & blocks & Huid & _ & _ & H & ->) Hu.
  assert (uid' = uid) as -> by congruence.
  induction H as [|q block ps blocks Hb _ IH]; [constructor|].
  simpl. apply Forall_app. split; [|done].
  destruct Hb as (pid & comments & _ & _ & _ & Hb).
  induction Hb as [|c row cs block Hrow _ IHb]; constructor; [|done].
  by eapply output_row_user_id.
Qed.

(** ** The claims *)

(** C6.  For every record and every list of required field names,
    [validate_data] returns [True] exactly when each required field is a key
    of the record with a value other than [None]; otherwise it returns
    [False]; it never raises. *)
Theorem validate_data_spec (data : record) (required_fields : list string) (w : world) :
  (exists b w',
     exec (validate_data data required_fields) w = (inr b, w') /\
     (b = true <->
      forall f, In f required_fields ->
                exists v, data !! f = Some v /\ v <> VNull)) /\
  (forall srv p e, ~ raises srv (validate_data data required_fields) p e).
Proof.
  split.
  - destruct (exec_validate_data data required_fields w) as [w' H].
    exists (valid data required_fields), w'. split; [done|]. apply valid_spec.
  - intros srv p e. apply raises_validate_data.
Qed.

(** C5.  When the users fetched all carry an integer [id], [get_users]
    returns exactly those with an even [id], in the order of the source, and
    every row of the run belongs to one of them: users with an odd [id]
    contribute no row. *)
Theorem get_users_keeps_even_ids (w w1 : world) (users : list record) :
  exec (fetch_json USERS_URL) w = (inr users, w1) ->
  Forall has_int_id users ->
  exec get_users w = (inr (List.filter (fun u => Z.even (id_of u)) users), w1) /\
  forall sched rows w2,
    collect sched w = Some (inr rows, w2) ->
    Forall (fun row =>
              exists u, In u users /\ Z.even (id_of u) = true /\
                        row !! "user_id" = Some (VInt (id_of u))) rows.
Proof.
  intros Hf Hids.
  assert (exec get_users w =
          (inr (List.filter (fun u => Z.even (id_of u)) users), w1)) as Hg.
  { unfold get_users. rewrite exec_bind, Hf, exec_lift.
    by rewrite comprehension_even_int. }
  split; [done|]. intros sched rows w2 Hc.
  destruct (collect_spec _ _ _ _ Hc) as [_ (us & blocks & ps & [w0 Hus] & _ & Hb & -> & _)].
  rewrite Hg in Hus. injection Hus as <- _.
  assert (Forall (fun u => In u users /\ Z.even (id_of u) = true)
                 (List.filter (fun u => Z.even (id_of u)) users)) as Hin.
  { apply List.Forall_forall. intros u Hu. by apply List.filter_In in Hu. }
  clear Hg Hc. revert Hb Hin.
  generalize (List.filter (fun u => Z.even (id_of u)) users). intros us Hb.
  induction Hb as [|u block us blocks Hu _ IH]; intros Hin; [constructor|].
  inversion Hin as [|? ? [Hu1 Hu2] Hin']; subst. simpl.
  apply Forall_app. split; [|by apply IH].
  assert (has_int_id u) as Hid.
  { rewrite List.Forall_forall in Hids. by apply Hids. }
  pose proof (has_int_id_key _ Hid) as Hk. destruct Hid as [z Hz].
  unfold sort_key, py_get in Hk. rewrite Hz in Hk.
  eapply Forall_impl; [by eapply user_block_user_id|].
  intros row Hrow. exists u. rewrite Hrow. by rewrite Hk.
Qed.

(** C10.  When a fetched user record has no [id] key or a null [id],
    [get_users] raises instead of skipping the record, and the run ends with
    that exception; it is [TypeError] when the other users carry integer
    ids. *)
Theorem get_users_raises_without_id (sched : nat -> nat) (w w1 : world)
    (users : list record) :
  exec (fetch_json USERS_URL) w = (inr users, w1) ->
  Exists lacks_id users ->
  exists e,
    exec get_users w = (inl e, w1) /\
    main sched w = Some (inl e, w1) /\
    (Forall (fun u => has_int_id u \/ lacks_id u) users -> e = TypeError).
Proof.
  intros Hf Hex. destruct (comprehension_lacks _ Hex) as [e He].
  assert (exec get_users w = (inl e, w1)) as Hg.
  { unfold get_users. by rewrite exec_bind, Hf, exec_lift, He. }
  exists e. split; [done|]. split.
  - unfold main, collect. by rewrite Hg.
  - intros Hall. rewrite (comprehension_lacks_TypeError _ Hex Hall) in He.
    congruence.
Qed.


(** C7.  A fetch whose first two attempts fail and whose third attempt
    succeeds returns the same result as a fetch that succeeds at once. *)
Theorem retry_is_transparent (url : string) (body : list record) (w w' : world) :
  (exists e1, attempt_result (net w (history w) url) = inl e1) ->
  (exists e2, attempt_result (net w (history w ++ [url]) url) = inl e2) ->
  attempt_result (net w (history w ++ [url; url]) url) = inr body ->
  attempt_result (net w' (history w') url) = inr body ->
  fst (exec (fetch_json url) w) = inr body /\
  fst (exec (fetch_json url) w') = inr body.
Proof.
  intros [e1 H1] [e2 H2] H3 H'. split.
  - destruct (exec_fetch_json url w) as (w3 & _ & _ & H).
    rewrite H1, H2, H3 in H. destruct H as [-> _]. done.
  - destruct (exec_fetch_json url w') as (w3 & _ & _ & H).
    rewrite H' in H. destruct H as [-> _]. done.
Qed.

(** C3, as the code has it.  A call of [fetch_json] makes between one and
    three attempts and gives up only after the third; it sleeps between
    successive attempts and each of these waits is 4 time-units.  The wait
    after the [k]-th attempt lies between 4 and 10 and never shrinks as [k]
    grows, but the first two are both 4. *)
Theorem fetch_json_attempts_and_waits (url : string) (w : world) :
  (exists n,
     1 <= n <= 3 /\
     history (snd (exec (fetch_json url) w)) = history w ++ replicate n url /\
     slept (snd (exec (fetch_json url) w)) = slept w ++ replicate (n - 1) 4%Z /\
     (forall e, fst (exec (fetch_json url) w) = inl e -> n = 3)) /\
  (forall k, (4 <= fetch_wait k <= 10)%Z /\ (fetch_wait k <= fetch_wait (S k))%Z).
Proof.
  split; [|apply fetch_wait_bounds].
  destruct (exec_fetch_json url w) as (w' & _ & _ & H).
  destruct (attempt_result (net w (history w) url)).
  2:{ destruct H as (-> & Hh & Hs). exists 1. simpl.
      rewrite Hh, Hs, app_nil_r. repeat split; (lia || discriminate). }
  destruct (attempt_result (net w (history w ++ [url]) url)).
  2:{ destruct H as (-> & Hh & Hs). exists 2. simpl.
      rewrite Hh, Hs. repeat split; (lia || discriminate). }
  destruct (attempt_result (net w (history w ++ [url; url]) url));
    destruct H as (-> & Hh & Hs); exists 3; simpl; rewrite Hh, Hs;
    repeat split; lia.
Qed.

(** *** Rows of a whole run *)

Lemma collect_rows_ok sched w rows w' :
  collect sched w = Some (inr rows, w') -> Forall row_ok rows.
Proof.
  intros Hc.
  destruct (collect_spec _ _ _ _ Hc) as [_ (us & blocks & ps & _ & _ & Hb & -> & _)].
  clear Hc. induction Hb as [|u block us blocks Hu _ IH]; [constructor|].
  simpl. apply Forall_app. split; [by eapply user_block_ok | done].
Qed.

Lemma write_csv_frame rows w r w' :
  write_csv rows w = (r, w') -> net w' = net w /\ history w' = history w.
Proof.
  unfold write_csv. destruct rows as [|row rows].
  - intros H. by injection H as <- <-.
  - destruct (writerows _ _) as [[e|[]] file]; intros H; by injection H as <- <-.
Qed.


Lemma Forall3_returns_functional {A} srv (ts : list (prog A)) ps rs ps' rs' :
  functional srv ->
  Forall3 (returns srv) ts ps rs -> Forall3 (returns srv) ts ps' rs' -> rs = rs'.
Proof.
  intros Hf H. revert ps' rs'.
  induction H as [|t p r ts ps rs Ht _ IH]; intros ps' rs' H';
    inversion H'; subst; [done|].
  f_equal; [by eapply returns_functional | by eapply IH].
Qed.

Lemma Forall3_returns_no_raise {A} srv (ts : list (prog A)) ps rs e :
  functional srv ->
  Forall3 (returns srv) ts ps rs ->
  Exists (fun t => exists p, raises srv t p e) ts -> False.
Proof.
  intros Hf H.
  induction H as [|t p r ts ps rs Ht _ IH]; intros H'; inversion H'; subst.
  - destruct H0 as [p' Hp']. by eapply returns_raises_functional.
  - by apply IH.
Qed.

(** C9.  Whatever the server answers, every row [process_user_data]
    returns has exactly the seven keys of the CSV header and no [None]
    among its values. *)
Theorem process_user_data_rows_ok (srv : string -> outcome -> Prop)
    (user : record) (p : list string) (rows : list record) :
  returns srv (process_user_data user) p rows -> Forall row_ok rows.
Proof.
  intros H. apply returns_process_user_data in H as [H _].
  by eapply user_block_ok.
Qed.

(** C8.  When the joined result is empty, as it is when no user qualifies,
    the run ends without error, the output file is as it was before the run
    and the log says that there was nothing to write. *)
Theorem empty_result_writes_nothing (sched : nat -> nat) (w w1 : world) :
  collect sched w = Some (inr [], w1) \/ exec get_users w = (inr [], w1) ->
  main sched w = Some (inr tt, do_log w1 InfoNoData) /\
  output_csv (do_log w1 InfoNoData) = output_csv w /\
  log (do_log w1 InfoNoData) = log w1 ++ [InfoNoData].
Proof.
  intros H.
  assert (collect sched w = Some (inr [], w1)) as Hc.
  { destruct H as [H|H]; [done|]. unfold collect. by rewrite H. }
  split; [|split; [|done]].
  - unfold main. by rewrite Hc.
  - by destruct (collect_spec _ _ _ _ Hc) as [[_ Ho] _].
Qed.



(** ** More about the code *)

(** *** The evenness filter on arbitrary records *)






(** *** What the validator does to the world *)

Lemma exec_validate_data_world data fields w :
  exec (validate_data data fields) w =
    (inr (valid data fields),
     match first_invalid data fields with
     | Some field => do_log w (WarningValidation field data)
     | None => w
     end) /\
  (valid data fields = true <-> first_invalid data fields = None).
Proof.
  unfold first_invalid.
  induction fields as [|f fields [IH1 IH2]]; simpl; [done|].
  destruct (py_in f data); simpl.
  - destruct (is_None (py_get data f)); simpl; [|done].
    split; [done|]. split; discriminate.
  - split; [done|]. split; discriminate.
Qed.

(** X2.  [validate_data] stops at the first required field that is missing
    or null and logs one warning for it, naming the field and the record;
    when every field is there it leaves the world as it was.  It makes no
    request in either case. *)
Theorem validate_data_effects (data : record) (required_fields : list string)
    (w : world) :
  exec (validate_data data required_fields) w =
    (inr (valid data required_fields),
     match first_invalid data required_fields with
     | Some field => do_log w (WarningValidation field data)
     | None => w
     end) /\
  (valid data required_fields = true <->
   first_invalid data required_fields = None).
Proof. apply exec_validate_data_world. Qed.

(** *** When the latest-records fetchers raise *)



(** *** The log of a call of the fetcher *)

Lemma exec_fetch_json_once_world url w :
  exec (fetch_json_once url) w =
  (attempt_result (net w (history w) url),
   mkWorld (net w) (history w ++ [url]) (slept w)
           (log w ++ attempt_log url (net w (history w) url)) (output_csv w)).
Proof.
  unfold fetch_json_once, attempt_log, error_log. simpl.
  destruct (net w (history w) url) as [e|[e|js]]; simpl;
    try destruct (is_client_error e); simpl; unfold do_log; simpl;
    rewrite <- ?app_assoc; reflexivity.
Qed.

(** X4.  The log of a call lists its attempts in order.  Each attempt logs
    that it fetches; a 2xx response is logged as fetched before its body is
    decoded, so also when the decoding then fails; an error record follows
    only when the exception is an [aiohttp.ClientError].  Other exceptions
    are retried all the same and leave no error record. *)
Theorem fetch_json_log (url : string) (w : world) :
  let o i := net w (history w ++ replicate i url) url in
  log (snd (exec (fetch_json url) w)) =
  log w ++ attempt_log url (o 0) ++
    (if failed (o 0) then
       attempt_log url (o 1) ++
       (if failed (o 1) then attempt_log url (o 2) else [])
     else []).
Proof.
  cbn zeta. unfold failed. cbn [replicate]. rewrite app_nil_r.
  unfold fetch_json, retry. change (3 - 1) with 2.
  rewrite exec_retry_loop, exec_fetch_json_once_world.
  destruct (attempt_result (net w (history w) url)); [|by rewrite app_nil_r].
  rewrite exec_retry_loop, exec_fetch_json_once_world.
  cbn [do_sleep net history slept log output_csv].
  destruct (attempt_result (net w (history w ++ [url]) url));
    [|cbn [snd log]; by rewrite <- !app_assoc, app_nil_r].
  rewrite exec_retry_loop, exec_fetch_json_once_world.
  cbn [do_sleep net history slept log output_csv].
  rewrite <- !app_assoc. cbn [app].
  destruct (attempt_result (net w (history w ++ [url; url]) url));
    cbn [snd log]; by rewrite <- ?app_assoc.
Qed.

(** *** The requests of a task *)

Lemma returns_reaches {A} srv (m : prog A) p a : returns srv m p a -> reaches srv m p.
Proof. induction 1; econstructor; eauto. Qed.

Lemma raises_reaches {A} srv (m : prog A) p e : raises srv m p e -> reaches srv m p.
Proof. induction 1; econstructor; eauto. Qed.

Lemma reaches_bind {A B} srv (m : prog A) (f : A -> prog B) p :
  reaches srv (bind m f) p ->
  reaches srv m p \/
  exists a p1 p2, p = p1 ++ p2 /\ returns srv m p1 a /\ reaches srv (f a) p2.
Proof.
  revert p. induction m as [a|e|url k IH|s k IH|l k IH]; simpl; intros p H.
  - right. exists a, [], p. split; [done|]. split; [constructor | done].
  - left. inversion H; subst. constructor.
  - inversion H as [|? ? o q Ho Hk| |]; subst; [left; constructor|].
    destruct (IH _ _ Hk) as [Hr|(a & p1 & p2 & -> & Ha & Hb)].
    + left. by econstructor.
    + right. exists a, (url :: p1), p2.
      split; [done|]. split; [by econstructor | done].
  - inversion H as [| |? ? q Hk|]; subst; [left; constructor|].
    destruct (IH _ Hk) as [Hr|(a & p1 & p2 & -> & Ha & Hb)].
    + left. by constructor.
    + right. exists a, p1, p2. split; [done|]. split; [by constructor | done].
  - inversion H as [| | |? ? q Hk]; subst; [left; constructor|].
    destruct (IH _ Hk) as [Hr|(a & p1 & p2 & -> & Ha & Hb)].
    + left. by constructor.
    + right. exists a, p1, p2. split; [done|]. split; [by constructor | done].
Qed.

Lemma reaches_lift {A} srv (r : result A) p : reaches srv (lift r) p -> p = [].
Proof. destruct r; simpl; by inversion 1. Qed.

Lemma reaches_try {A} srv (m : prog A) p : reaches srv (try_ m) p -> reaches srv m p.
Proof.
  revert p. induction m as [a|e|url k IH|s k IH|l k IH]; simpl; intros p H;
    inversion H; subst; econstructor; eauto.
Qed.

Lemma reaches_validate_data srv data fields p :
  reaches srv (validate_data data fields) p -> p = [].
Proof.
  induction fields as [|f fields IH]; simpl; intros H.
  - by inversion H.
  - destruct (negb (py_in f data) || is_None (py_get data f)); [|by apply IH].
    inversion H as [| | |? ? ? Hk]; subst; [done|]. by inversion Hk.
Qed.

Lemma reaches_fetch_json_once srv url p :
  reaches srv (fetch_json_once url) p -> Forall (eq url) p.
Proof.
  unfold fetch_json_once. intros H.
  inversion H as [| | |? ? ? H1]; subst; [constructor|].
  inversion H1 as [|? ? o q Ho H2| |]; subst; [constructor|].
  constructor; [done|].
  assert (forall e q', reaches srv
            (if is_client_error e then Log (ErrorApiFailed url e) (Raise e)
             else Raise e : prog (list record)) q' -> q' = []) as Herr.
  { intros e q' Hq. destruct (is_client_error e).
    - inversion Hq as [| | |? ? ? Hk]; subst; [done|]. by inversion Hk.
    - by inversion Hq. }
  destruct o as [e|[e|js]].
  - by rewrite (Herr _ _ H2).
  - inversion H2 as [| | |? ? ? H3]; subst; [constructor|].
    by rewrite (Herr _ _ H3).
  - inversion H2 as [| | |? ? ? H3]; subst; [constructor|].
    inversion H3; subst. constructor.
Qed.

Lemma reaches_retry_fetch srv wait url n k p :
  reaches srv (retry_loop wait n k (fetch_json_once url)) p -> Forall (eq url) p.
Proof.
  revert k p. induction n as [|n IH]; intros k p H;
    rewrite retry_loop_unfold in H;
    apply reaches_bind in H as [H|(r & p1 & p2 & -> & Hr & H)];
    try (apply (reaches_fetch_json_once srv), reaches_try; exact H);
    apply Forall_app;
    (split; [apply (reaches_fetch_json_once srv), reaches_try;
             eapply returns_reaches; exact Hr|]);
    destruct r as [e|a]; inversion H; subst; try constructor.
  by eapply IH.
Qed.

Lemma reaches_fetch_json srv url p :
  reaches srv (fetch_json url) p -> Forall (eq url) p.
Proof. apply reaches_retry_fetch. Qed.

Lemma reaches_get_latest_posts srv v p :
  reaches srv (get_latest_posts_for_user v) p -> Forall (eq (posts_url v)) p.
Proof.
  unfold get_latest_posts_for_user. fold (posts_url v). intros H.
  apply reaches_bind in H as [H|(raw & p1 & p2 & -> & H1 & H)];
    [by apply (reaches_fetch_json srv)|].
  apply returns_fetch_json in H1 as [_ H1].
  apply Forall_app. split; [done|].
  apply reaches_bind in H as [H|(s & p3 & p4 & -> & H2 & H)].
  - by rewrite (reaches_lift _ _ _ H).
  - apply returns_lift in H2 as [_ ->]. inversion H; subst. constructor.
Qed.

Lemma reaches_get_latest_comments srv v p :
  reaches srv (get_latest_comments_for_post v) p -> Forall (eq (comments_url v)) p.
Proof.
  unfold get_latest_comments_for_post. fold (comments_url v). intros H.
  apply reaches_bind in H as [H|(raw & p1 & p2 & -> & H1 & H)];
    [by apply (reaches_fetch_json srv)|].
  apply returns_fetch_json in H1 as [_ H1].
  apply Forall_app. split; [done|].
  apply reaches_bind in H as [H|(s & p3 & p4 & -> & H2 & H)].
  - by rewrite (reaches_lift _ _ _ H).
  - apply returns_lift in H2 as [_ ->]. inversion H; subst. constructor.
Qed.

Lemma reaches_comments_loop srv uid user post comments acc p :
  reaches srv (comments_loop uid user post comments acc) p -> p = [].
Proof.
  revert acc p. induction comments as [|c comments IH]; intros acc p H;
    cbn [comments_loop] in H; [by inversion H|].
  apply reaches_bind in H as [H|(ok & p1 & p2 & -> & Hv & H)];
    [exact (reaches_validate_data _ _ _ _ H)|].
  apply returns_validate_data in Hv as [_ ->]. cbn [app].
  destruct (negb ok); [by eapply IH|].
  apply reaches_bind in H as [H|(row & p3 & p4 & -> & Hrow & H)];
    [exact (reaches_lift _ _ _ H)|].
  apply returns_lift in Hrow as [_ ->]. by eapply IH.
Qed.

Lemma reaches_posts_loop srv uid user posts acc p :
  reaches srv (posts_loop uid user posts acc) p ->
  Forall (fun url => exists post pid,
            In post posts /\ valid post ["id"; "title"] = true /\
            post !! "id" = Some pid /\ url = comments_url pid) p.
Proof.
  revert acc p. induction posts as [|post posts IH]; intros acc p H;
    cbn [posts_loop] in H; [inversion H; constructor|].
  assert (forall acc' q, reaches srv (posts_loop uid user posts acc') q ->
            Forall (fun url => exists post0 pid,
              In post0 (post :: posts) /\ valid post0 ["id"; "title"] = true /\
              post0 !! "id" = Some pid /\ url = comments_url pid) q) as IH'.
  { intros acc' q Hq. eapply Forall_impl; [by eapply IH|].
    intros url (q0 & pid & Hin & Hv & Hid & ->). exists q0, pid.
    split; [by right | done]. }
  apply reaches_bind in H as [H|(ok & p1 & p2 & -> & Hv & H)].
  { rewrite (reaches_validate_data _ _ _ _ H). constructor. }
  apply returns_validate_data in Hv as [-> ->]. cbn [app].
  destruct (valid post _) eqn:Hvalid; cbn [negb] in H; [|by eapply IH'].
  apply reaches_bind in H as [H|(pid & p3 & p4 & -> & Hpid & H)].
  { rewrite (reaches_lift _ _ _ H). constructor. }
  apply returns_lift in Hpid as [Hpid ->]. cbn [app].
  unfold py_getitem in Hpid. destruct (post !! "id") as [pid'|] eqn:Hid;
    [|discriminate]. injection Hpid as ->.
  assert (forall q, Forall (eq (comments_url pid)) q ->
            Forall (fun url => exists post0 pid0,
              In post0 (post :: posts) /\ valid post0 ["id"; "title"] = true /\
              post0 !! "id" = Some pid0 /\ url = comments_url pid0) q) as Hmine.
  { intros q Hq. eapply Forall_impl; [exact Hq|].
    intros url <-. exists post, pid. split; [by left | done]. }
  apply reaches_bind in H as [H|(comments & p5 & p6 & -> & Hc & H)].
  { apply Hmine, (reaches_get_latest_comments srv). exact H. }
  apply Forall_app. split.
  { apply Hmine, (reaches_get_latest_comments srv).
    eapply returns_reaches. exact Hc. }
  apply reaches_bind in H as [H|(acc' & p7 & p8 & -> & Hl & H)].
  { rewrite (reaches_comments_loop _ _ _ _ _ _ _ H). constructor. }
  apply returns_comments_loop in Hl as [-> _]. cbn [app]. by eapply IH'.
Qed.

(** X5.  On every path of [process_user_data], complete or not, each
    request is for the posts of the user's id or for the comments of a
    valid post among the five latest served for it: a user that fails
    validation costs no request, and the comments of a post that fails
    validation are never fetched. *)
Theorem process_user_data_requests (srv : string -> outcome -> Prop)
    (user : record) (p : list string) :
  reaches srv (process_user_data user) p ->
  Forall (task_request srv user) p /\
  (valid user ["id"; "name"] = false -> p = []).
Proof.
  unfold process_user_data. intros H.
  apply reaches_bind in H as [H|(ok & p1 & p2 & -> & Hv & H)].
  { rewrite (reaches_validate_data _ _ _ _ H). by split. }
  apply returns_validate_data in Hv as [-> ->]. cbn [app].
  destruct (valid user _) eqn:Hvalid; cbn [negb] in H;
    [|inversion H; subst; by split].
  split; [|discriminate].
  apply reaches_bind in H as [H|(uid & p3 & p4 & -> & Huid & H)].
  { rewrite (reaches_lift _ _ _ H). constructor. }
  apply returns_lift in Huid as [Huid ->]. cbn [app].
  unfold py_getitem in Huid. destruct (user !! "id") as [uid'|] eqn:Hid;
    [|discriminate]. injection Huid as ->.
  assert (forall q, Forall (eq (posts_url uid)) q ->
            Forall (task_request srv user) q) as Hmine.
  { intros q Hq. eapply Forall_impl; [exact Hq|].
    intros url <-. split; [done|]. exists uid. split; [done | by left]. }
  apply reaches_bind in H as [H|(posts & p5 & p6 & -> & Hposts & H)].
  { apply Hmine, (reaches_get_latest_posts srv). exact H. }
  apply Forall_app. split.
  { apply Hmine, (reaches_get_latest_posts srv).
    eapply returns_reaches. exact Hposts. }
  apply returns_get_latest_posts in Hposts as [Hposts _].
  eapply Forall_impl; [by eapply reaches_posts_loop|].
  intros url (post & pid & Hin & Hv & Hpid & ->).
  split; [done|]. exists uid. split; [done|]. right. by exists posts, post, pid.
Qed.

(** *** Counting requests *)

Lemma gets_le_mono {A} n n' (m : prog A) : gets_le n m -> n <= n' -> gets_le n' m.
Proof.
  intros H. revert n'.
  induction H as [n a|n e|n url k _ IH|n s k _ IH|n l k _ IH]; intros n' Hn;
    try (constructor; by apply IH).
  destruct n' as [|n']; [lia|]. constructor. intros o. apply IH. lia.
Qed.

Lemma gets_le_bind {A B} a b (m : prog A) (f : A -> prog B) :
  gets_le a m ->
  (forall x p, returns (fun _ _ => True) m p x -> gets_le b (f x)) ->
  gets_le (a + b) (bind m f).
Proof.
  intros H. induction H as [n x|n e|n url k _ IH|n s k _ IH|n l k _ IH];
    intros Hf; simpl.
  - eapply gets_le_mono; [eapply Hf; constructor | lia].
  - constructor.
  - constructor. intros o. apply IH. intros x p Hx. eapply Hf.
    by econstructor.
  - constructor. apply IH. intros x p Hx. eapply Hf. by constructor.
  - constructor. apply IH. intros x p Hx. eapply Hf. by constructor.
Qed.

Lemma gets_le_try {A} n (m : prog A) : gets_le n m -> gets_le n (try_ m).
Proof. induction 1; simpl; by constructor. Qed.

Lemma gets_le_lift {A} n (r : result A) : gets_le n (lift r).
Proof. destruct r; constructor. Qed.

Lemma gets_le_validate_data data fields : gets_le 0 (validate_data data fields).
Proof.
  induction fields as [|f fields IH]; simpl; [constructor|].
  destruct (negb (py_in f data) || is_None (py_get data f)); [|done].
  repeat constructor.
Qed.

Lemma gets_le_fetch_json_once url : gets_le 1 (fetch_json_once url).
Proof.
  unfold fetch_json_once. constructor. constructor. intros [e|[e|js]].
  - destruct (is_client_error e); repeat constructor.
  - constructor. destruct (is_client_error e); repeat constructor.
  - repeat constructor.
Qed.

Lemma gets_le_retry_loop {A} wait n k c (fn : prog A) :
  gets_le c fn -> gets_le (c + n * c) (retry_loop wait n k fn).
Proof.
  intros Hc. revert k.
  induction n as [|n IH]; intros k; rewrite retry_loop_unfold.
  - apply gets_le_bind; [by apply gets_le_try|].
    intros [e|a] _ _; constructor.
  - apply gets_le_bind; [by apply gets_le_try|].
    intros [e|a] _ _; constructor. apply IH.
Qed.

Lemma gets_le_fetch_json url : gets_le 3 (fetch_json url).
Proof.
  apply (gets_le_retry_loop _ 2 1 1). apply gets_le_fetch_json_once.
Qed.

Lemma gets_le_get_users : gets_le 3 get_users.
Proof.
  unfold get_users. apply (gets_le_bind 3 0); [apply gets_le_fetch_json|].
  intros; apply gets_le_lift.
Qed.

Lemma gets_le_get_latest_posts v : gets_le 3 (get_latest_posts_for_user v).
Proof.
  unfold get_latest_posts_for_user.
  apply (gets_le_bind 3 0); [apply gets_le_fetch_json|]. intros raw _ _.
  apply (gets_le_bind 0 0); [apply gets_le_lift|]. intros; constructor.
Qed.

Lemma gets_le_get_latest_comments v : gets_le 3 (get_latest_comments_for_post v).
Proof.
  unfold get_latest_comments_for_post.
  apply (gets_le_bind 3 0); [apply gets_le_fetch_json|]. intros raw _ _.
  apply (gets_le_bind 0 0); [apply gets_le_lift|]. intros; constructor.
Qed.

Lemma gets_le_comments_loop uid user post comments acc :
  gets_le 0 (comments_loop uid user post comments acc).
Proof.
  revert acc. induction comments as [|c comments IH]; intros acc;
    cbn [comments_loop]; [constructor|].
  apply (gets_le_bind 0 0); [apply gets_le_validate_data|].
  intros ok _ _. destruct (negb ok); [apply IH|].
  apply (gets_le_bind 0 0); [apply gets_le_lift|]. intros; apply IH.
Qed.

Lemma gets_le_posts_loop uid user posts acc :
  gets_le (length posts * 3) (posts_loop uid user posts acc).
Proof.
  revert acc. induction posts as [|post posts IH]; intros acc;
    cbn [posts_loop length]; [constructor|].
  apply (gets_le_bind 0 (3 + length posts * 3)); [apply gets_le_validate_data|].
  intros ok _ _.
  destruct (negb ok); [eapply gets_le_mono; [apply IH | lia]|].
  apply (gets_le_bind 0 (3 + length posts * 3)); [apply gets_le_lift|].
  intros pid _ _.
  apply (gets_le_bind 3 (length posts * 3)); [apply gets_le_get_latest_comments|].
  intros comments _ _.
  apply (gets_le_bind 0 (length posts * 3)); [apply gets_le_comments_loop|].
  intros; apply IH.
Qed.

Lemma gets_le_process_user_data user : gets_le 18 (process_user_data user).
Proof.
  unfold process_user_data.
  apply (gets_le_bind 0 18); [apply gets_le_validate_data|].
  intros ok _ _. destruct (negb ok); [constructor|].
  apply (gets_le_bind 0 18); [apply gets_le_lift|]. intros uid _ _.
  apply (gets_le_bind 3 15); [apply gets_le_get_latest_posts|].
  intros posts p Hp.
  apply returns_get_latest_posts in Hp as [Hp _].
  apply latest_from_length in Hp.
  eapply gets_le_mono; [apply gets_le_posts_loop | lia].
Qed.

Lemma exec_gets {A} n (m : prog A) w r w' :
  gets_le n m -> exec m w = (r, w') ->
  length (history w') <= length (history w) + n.
Proof.
  intros H. revert w.
  induction H as [n a|n e|n url k _ IH|n s k _ IH|n l k _ IH]; intros w;
    simpl; intros He.
  - injection He as _ <-. lia.
  - injection He as _ <-. lia.
  - apply IH in He. simpl in He. rewrite length_app in He. simpl in He. lia.
  - apply IH in He. simpl in He. lia.
  - apply IH in He. simpl in He. lia.
Qed.

Lemma step_task_gets {A} n (t : prog A) w t' w' :
  gets_le n t -> step_task t w = (t', w') ->
  exists n', gets_le n' t' /\
             length (history w') + n' <= length (history w) + n.
Proof.
  intros H. destruct H as [n a|n e|n url k Hk|n s k Hk|n l k Hk]; simpl;
    intros He; injection He as <- <-.
  - exists n. split; [constructor | lia].
  - exists n. split; [constructor | lia].
  - exists n. split; [apply Hk|]. simpl. rewrite length_app. simpl. lia.
  - exists n. split; [done | simpl; lia].
  - exists n. split; [done | simpl; lia].
Qed.

Lemma step_nth_gets {A} k (ts : list (prog A)) ns w ts' w' :
  Forall2 gets_le ns ts -> step_nth k ts w = (ts', w') ->
  exists ns', Forall2 gets_le ns' ts' /\
    length (history w') + sum_list ns' <= length (history w) + sum_list ns.
Proof.
  intros Hs. revert k ts' w'.
  induction Hs as [|n t ns ts Hn Hs IH]; intros k ts' w'; simpl; intros H.
  - injection H as <- <-. exists (@nil nat). split; [constructor | simpl; lia].
  - destruct (is_done t).
    + destruct (step_nth k ts w) as [ts1 w1] eqn:E. injection H as <- <-.
      destruct (IH _ _ _ E) as (ns' & Hns' & Hsum).
      exists (n :: ns'). split; [by constructor | simpl; lia].
    + destruct k as [|k].
      * destruct (step_task t w) as [t1 w1] eqn:E. injection H as <- <-.
        destruct (step_task_gets _ _ _ _ _ Hn E) as (n' & Hn' & Hsum).
        exists (n' :: ns). split; [by constructor | simpl; lia].
      * destruct (step_nth k ts w) as [ts1 w1] eqn:E. injection H as <- <-.
        destruct (IH _ _ _ E) as (ns' & Hns' & Hsum).
        exists (n :: ns'). split; [by constructor | simpl; lia].
Qed.

Lemma gather_gets {A} fuel sched tick (ts : list (prog A)) ns w r w' :
  Forall2 gets_le ns ts -> gather fuel sched tick ts w = Some (r, w') ->
  length (history w') <= length (history w) + sum_list ns.
Proof.
  revert tick ts ns w.
  induction fuel as [|fuel IH]; intros tick ts ns w Hs; simpl;
    destruct (first_raised ts) as [e|];
    try (intros H; injection H as _ <-; lia);
    destruct (results_of ts) as [rs|];
    try (intros H; injection H as _ <-; lia);
    try discriminate.
  destruct (step_nth _ ts w) as [ts1 w1] eqn:E. intros H.
  destruct (step_nth_gets _ _ _ _ _ _ Hs E) as (ns' & Hns' & Hsum).
  pose proof (IH _ _ _ _ Hns' H). lia.
Qed.

Lemma Forall2_gets_tasks users :
  Forall2 gets_le (replicate (length users) 18) (map process_user_data users).
Proof.
  induction users; simpl; constructor; [apply gets_le_process_user_data | done].
Qed.

Lemma users_of_inr w users w1 : exec get_users w = (inr users, w1) -> users_of w = users.
Proof. unfold users_of. by intros ->. Qed.

Lemma collect_gets sched w r w' :
  collect sched w = Some (r, w') ->
  length (history w') <= length (history w) + 3 + 18 * length (users_of w).
Proof.
  unfold collect. destruct (exec get_users w) as [[e|users] w1] eqn:Eu.
  - intros H. injection H as _ <-.
    pose proof (exec_gets _ _ _ _ _ gets_le_get_users Eu). lia.
  - rewrite (users_of_inr _ _ _ Eu).
    pose proof (exec_gets _ _ _ _ _ gets_le_get_users Eu) as H1.
    destruct (gather _ _ _ _ _) as [[r2 w2]|] eqn:Eg; [|discriminate].
    pose proof (gather_gets _ _ _ _ _ _ _ _ (Forall2_gets_tasks users) Eg) as H2.
    rewrite sum_list_replicate_eq in H2.
    destruct r2; intros H; injection H as _ <-; lia.
Qed.

(** X6.  Every run ends, and by then it has made at most 3 requests for
    the users and 18 for each user [get_users] returned: one call of
    [fetch_json] for the posts and up to five for comments, of at most three
    attempts each. *)
Theorem run_request_bound (sched : nat -> nat) (w : world) :
  match main sched w with
  | Some (_, w') =>
      length (history w') <= length (history w) + 3 + 18 * length (users_of w)
  | None => False
  end.
Proof.
  destruct (main_total sched w) as (r & w' & Hm). rewrite Hm.
  unfold main in Hm.
  destruct (collect sched w) as [[[e|rows] w1]|] eqn:Hc; [| |discriminate].
  - injection Hm as _ <-. by eapply collect_gets.
  - injection Hm as Hm. destruct (write_csv_frame _ _ _ _ Hm) as [_ ->].
    by eapply collect_gets.
Qed.

(** *** How many rows, and what is in them *)

Lemma filter_length_le_list {A} (f : A -> bool) l :
  length (List.filter f l) <= length l.
Proof. induction l as [|x l IH]; simpl; [done|]. destruct (f x); simpl; lia. Qed.

Lemma post_block_length srv uid user post block :
  post_block srv uid user post block -> length block <= 3.
Proof.
  intros (pid & comments & _ & Hc & _ & H).
  apply latest_from_length in Hc. apply Forall2_length in H.
  pose proof (filter_length_le_list
                (fun c => valid c ["id"; "body"; "email"]) comments). lia.
Qed.

Lemma concat_length_le {A} (ls : list (list A)) n :
  Forall (fun l => length l <= n) ls -> length (concat ls) <= length ls * n.
Proof.
  induction 1 as [|l ls Hl _ IH]; simpl; [done|]. rewrite length_app. lia.
Qed.

Lemma user_block_length srv user rows : user_block srv user rows -> length rows <= 15.
Proof.
  unfold user_block. destruct (valid user _); [|intros ->; simpl; lia].
  intros (uid & posts & blocks & _ & Hp & _ & H & ->).
  apply latest_from_length in Hp.
  pose proof (filter_length_le_list (fun q => valid q ["id"; "title"]) posts) as Hf.
  pose proof (Forall2_length _ _ _ H) as Hlen.
  assert (Forall (fun b => length b <= 3) blocks) as Hb.
  { clear Hlen Hf. induction H as [|q b qs bs Hq _ IH]; constructor; [|done].
    by eapply post_block_length. }
  apply concat_length_le in Hb. lia.
Qed.

(** X7.  A run yields at most 15 rows for each user [get_users] returned:
    five posts at most, three comments each. *)
Theorem run_row_bound (sched : nat -> nat) (w w' : world) (rows : list record) :
  collect sched w = Some (inr rows, w') ->
  length rows <= 15 * length (users_of w).
Proof.
  intros Hc.
  destruct (collect_spec _ _ _ _ Hc)
    as [_ (us & blocks & ps & [w1 Hus] & _ & Hb & -> & _)].
  rewrite (users_of_inr _ _ _ Hus). clear Hc Hus.
  induction Hb as [|u b us bs Hu _ IH]; simpl; [done|].
  rewrite length_app. apply user_block_length in Hu. lia.
Qed.

Lemma output_row_fields uid user post comment row :
  output_row uid user post comment = inr row ->
  row !! "user_id" = Some uid /\
  row !! "user_name" = user !! "name" /\
  row !! "post_id" = post !! "id" /\
  row !! "post_title" = post !! "title" /\
  row !! "comment_id" = comment !! "id" /\
  row !! "comment_body" = comment !! "body" /\
  row !! "comment_author_email" = comment !! "email".
Proof.
  unfold output_row, py_getitem.
  destruct (user !! "name"); [|discriminate].
  destruct (post !! "id"); [|discriminate].
  destruct (post !! "title"); [|discriminate].
  destruct (comment !! "id"); [|discriminate].
  destruct (comment !! "body"); [|discriminate].
  destruct (comment !! "email"); [|discriminate].
  cbn [rbind]. intros H. injection H as <-.
  repeat split; vm_compute; reflexivity.
Qed.

Lemma Forall2_Forall_r {A B} (P : A -> B -> Prop) xs ys :
  Forall2 P xs ys -> Forall (fun y => exists x, In x xs /\ P x y) ys.
Proof.
  induction 1 as [|x y xs ys Hxy _ IH]; constructor.
  - exists x. split; [by left | done].
  - eapply Forall_impl; [exact IH|]. intros y' (x' & Hin & Hp).
    exists x'. split; [by right | done].
Qed.

Lemma Forall_concat_list {A} (P : A -> Prop) (ls : list (list A)) :
  Forall (Forall P) ls -> Forall P (concat ls).
Proof. induction 1; simpl; [constructor | by apply Forall_app]. Qed.

Lemma user_block_joins srv user rows :
  user_block srv user rows -> Forall (joins srv user) rows.
Proof.
  unfold user_block. destruct (valid user _); [|by intros ->].
  intros (uid & posts & blocks & Huid & Hposts & _ & H & ->).
  apply Forall_concat_list.
  eapply Forall_impl; [exact (Forall2_Forall_r _ _ _ H)|].
  intros block (post & Hpost & pid & comments & Hpid & Hcomments & _ & Hb).
  apply List.filter_In in Hpost as [Hpost _].
  eapply Forall_impl; [exact (Forall2_Forall_r _ _ _ Hb)|].
  intros row (comment & Hcomment & Hrow).
  apply List.filter_In in Hcomment as [Hcomment _].
  apply output_row_fields in Hrow as (H1 & H2 & H3 & H4 & H5 & H6 & H7).
  exists uid, posts, post, pid, comments, comment.
  rewrite Huid. by repeat (split; [done|]).
Qed.

(** X8.  Every row of a run joins one of the users [get_users] returned
    with a post served for that user's id and a comment served for that
    post's id: its seven fields are the user's [id] and [name], the post's
    [id] and [title] and the comment's [id], [body] and [email]. *)
Theorem run_rows_join (sched : nat -> nat) (w w' : world) (rows : list record) :
  collect sched w = Some (inr rows, w') ->
  Forall (fun row => exists user, In user (users_of w) /\
                                  joins (served_by (net w)) user row) rows.
Proof.
  intros Hc.
  destruct (collect_spec _ _ _ _ Hc)
    as [_ (us & blocks & ps & [w1 Hus] & _ & Hb & -> & _)].
  rewrite (users_of_inr _ _ _ Hus). clear Hc Hus.
  apply Forall_concat_list.
  eapply Forall_impl; [exact (Forall2_Forall_r _ _ _ Hb)|].
  intros block (user & Hin & Hblock).
  eapply Forall_impl; [by eapply user_block_joins|].
  intros row Hrow. by exists user.
Qed.

(** *** What a task can raise *)








(** *** What a run can raise *)






(** *** The file that is written *)

Lemma dict_to_list_cells row : row_ok row -> dict_to_list row = inr (cells row).
Proof.
  intros Hok. destruct (dict_to_list_ok _ Hok) as [line Hl]. rewrite Hl. f_equal.
  unfold dict_to_list in Hl. destruct (forallb _ _); [|discriminate].
  injection Hl as <-. destruct Hok as [_ Hv].
  unfold cells, py_get, fieldnames in *. cbn [map].
  destruct (Hv "user_id") as (? & -> & _); [simpl; tauto|].
  destruct (Hv "user_name") as (? & -> & _); [simpl; tauto|].
  destruct (Hv "post_id") as (? & -> & _); [simpl; tauto|].
  destruct (Hv "post_title") as (? & -> & _); [simpl; tauto|].
  destruct (Hv "comment_id") as (? & -> & _); [simpl; tauto|].
  destruct (Hv "comment_body") as (? & -> & _); [simpl; tauto|].
  destruct (Hv "comment_author_email") as (? & -> & _); [simpl; tauto|].
  reflexivity.
Qed.

Lemma writerows_cells rows file :
  Forall row_ok rows -> writerows rows file = (inr tt, file ++ map cells rows).
Proof.
  intros H. revert file. induction H as [|row rows Hrow _ IH]; intros file; simpl.
  - by rewrite app_nil_r.
  - by rewrite (dict_to_list_cells _ Hrow), IH, <- app_assoc.
Qed.


(** *** Running again *)

Lemma exec_get_users_functional w w2 users w1 :
  functional (served_by (net w)) -> net w2 = net w ->
  exec get_users w = (inr users, w1) ->
  exists w3, exec get_users w2 = (inr users, w3).
Proof.
  intros Hf Hn Hu. apply exec_returns in Hu as (p & Hp & _).
  destruct (exec get_users w2) as [[e|us] w3] eqn:E.
  - apply exec_raises in E as (p' & Hp' & _). rewrite Hn in Hp'.
    destruct (returns_raises_functional _ _ _ _ _ _ Hf Hp Hp').
  - apply exec_returns in E as (p' & Hp' & _). rewrite Hn in Hp'.
    assert (users = us) as -> by exact (returns_functional _ _ _ _ _ _ Hf Hp Hp').
    eauto.
Qed.

Lemma collect_functional s s2 w w2 rows w1 :
  functional (served_by (net w)) -> net w2 = net w ->
  collect s w = Some (inr rows, w1) ->
  exists w3, collect s2 w2 = Some (inr rows, w3).
Proof.
  intros Hf Hn Hc.
  destruct (collect_spec _ _ _ _ Hc)
    as [_ (us & blocks & ps & [w0 Hus] & Hret & _ & -> & _)].
  destruct (exec_get_users_functional _ _ _ _ Hf Hn Hus) as [w0' Hus'].
  destruct (collect_total s2 w2) as (r & w3 & Hc').
  exists w3. rewrite Hc'. do 2 f_equal.
  destruct (collect_spec _ _ _ _ Hc') as [_ H']. rewrite Hn in H'.
  destruct r as [e|rows'].
  - exfalso. destruct H' as [[w4 H']|(us' & w4 & Hus'' & H')]; [congruence|].
    assert (us' = us) as -> by congruence.
    by eapply Forall3_returns_no_raise.
  - destruct H' as (us' & blocks' & ps' & [w4 Hus''] & Hret' & _ & -> & _).
    assert (us' = us) as -> by congruence.
    by rewrite (Forall3_returns_functional _ _ _ _ _ _ Hf Hret Hret').
Qed.

(** X12.  With a server that answers each URL in one way only, running
    [main] again after a run that ended well ends well too, under every
    schedule, and leaves the output file exactly as the first run left
    it. *)
Theorem rerun_leaves_file (s1 s2 : nat -> nat) (w w' : world) :
  functional (served_by (net w)) ->
  main s1 w = Some (inr tt, w') ->
  exists w'', main s2 w' = Some (inr tt, w'') /\ output_csv w'' = output_csv w'.
Proof.
  intros Hf Hm. unfold main in Hm.
  destruct (collect s1 w) as [[[e|rows] w1]|] eqn:Hc; try discriminate.
  injection Hm as Hw.
  destruct (collect_spec _ _ _ _ Hc) as [[Hn1 _] _].
  destruct (write_csv_frame _ _ _ _ Hw) as [Hn2 _].
  destruct (collect_functional s1 s2 w w' rows w1 Hf) as [w3 Hc'];
    [congruence | done |].
  pose proof (collect_rows_ok _ _ _ _ Hc) as Hok.
  destruct (collect_spec _ _ _ _ Hc') as [[_ Ho3] _].
  unfold main. rewrite Hc'. unfold write_csv in *.
  destruct rows as [|row rows].
  - injection Hw as Hw. rewrite <- Hw in Ho3. eexists. split; [done|].
    rewrite <- Hw. simpl in *. done.
  - rewrite (writerows_cells _ _ Hok) in Hw |- *.
    injection Hw as Hw. rewrite <- Hw. eexists. split; done.
Qed.

(** *** Skipping invalid records *)

Lemma same_run_refl {A} (m : prog A) : same_run m m.
Proof.
  unfold same_run, same_but_log.
  induction m as [a|e|url k IH|s k IH|l k IH]; intros w1 w2 (Hn & Hh & Hs & Ho);
    simpl; try done.
  - rewrite Hn, Hh. apply IH. simpl. by rewrite <- Hs, <- Ho.
  - apply IH. simpl. by rewrite Hs.
  - apply IH. simpl. done.
Qed.

Lemma same_run_bind {A B} (m1 m2 : prog A) (f1 f2 : A -> prog B) :
  same_run m1 m2 -> (forall a, same_run (f1 a) (f2 a)) ->
  same_run (bind m1 f1) (bind m2 f2).
Proof.
  intros Hm Hf w1 w2 Hw. rewrite !exec_bind.
  destruct (Hm w1 w2 Hw) as [Hr Hw'].
  destruct (exec m1 w1) as [[e1|a1] w1'], (exec m2 w2) as [[e2|a2] w2'];
    simpl in *; try discriminate.
  - by injection Hr as ->.
  - injection Hr as ->. by apply Hf.
Qed.

Lemma same_run_skip {A} data fields (k : bool -> prog A) (m : prog A) :
  same_run (k (valid data fields)) m ->
  same_run (bind (validate_data data fields) k) m.
Proof.
  intros Hk w1 w2 Hw. rewrite exec_bind.
  destruct (exec_validate_data_world data fields w1) as [-> _].
  apply Hk. destruct (first_invalid data fields); [|done].
  destruct Hw as (Hn & Hh & Hs & Ho). by repeat split.
Qed.

Lemma same_run_comments_loop uid user post comments acc :
  same_run (comments_loop uid user post comments acc)
           (comments_loop uid user post
              (List.filter (fun c => valid c ["id"; "body"; "email"]) comments)
              acc).
Proof.
  revert acc. induction comments as [|c comments IH]; intros acc;
    cbn [comments_loop List.filter]; [apply same_run_refl|].
  destruct (valid c _) eqn:Hc.
  - cbn [comments_loop]. apply same_run_bind; [apply same_run_refl|].
    intros ok. destruct (negb ok); [apply IH|].
    apply same_run_bind; [apply same_run_refl | intros; apply IH].
  - apply same_run_skip. rewrite Hc. cbn [negb]. apply IH.
Qed.

Lemma same_run_posts_loop uid user posts acc :
  same_run (posts_loop uid user posts acc)
           (posts_loop uid user
              (List.filter (fun q => valid q ["id"; "title"]) posts) acc).
Proof.
  revert acc. induction posts as [|post posts IH]; intros acc;
    cbn [posts_loop List.filter]; [apply same_run_refl|].
  destruct (valid post _) eqn:Hp.
  - cbn [posts_loop]. apply same_run_bind; [apply same_run_refl|].
    intros ok. destruct (negb ok); [apply IH|].
    apply same_run_bind; [apply same_run_refl|]. intros pid.
    apply same_run_bind; [apply same_run_refl|]. intros comments.
    apply same_run_bind; [apply same_run_refl | intros; apply IH].
  - apply same_run_skip. rewrite Hp. cbn [negb]. apply IH.
Qed.

(** X13.  A post or a comment that fails validation costs a warning and
    nothing else: the loops of [process_user_data] give the same rows, make
    the same requests and sleep the same as on the list without the invalid
    records; only the log differs. *)
Theorem invalid_records_only_log (uid : value) (user post : record)
    (posts comments acc : list record) :
  same_run (posts_loop uid user posts acc)
           (posts_loop uid user
              (List.filter (fun q => valid q ["id"; "title"]) posts) acc) /\
  same_run (comments_loop uid user post comments acc)
           (comments_loop uid user post
              (List.filter (fun c => valid c ["id"; "body"; "email"]) comments)
              acc).
Proof.
  split; [apply same_run_posts_loop | apply same_run_comments_loop].
Qed.

End Program.

(** ** The claims on concrete runs *)

Lemma get_users_keeps_even_ids_witness :
  exec (get_users no_format) (start (api [user1; user2])) =
  (inr [user2], after_users [user1; user2]).
Proof.
  refine (proj1 (get_users_keeps_even_ids no_format
                   (start (api [user1; user2])) (after_users [user1; user2])
                   [user1; user2] _ _)).
  - vm_compute. reflexivity.
  - repeat constructor; eexists; vm_compute; reflexivity.
Defined.

Lemma get_users_raises_without_id_witness :
  exists e,
    exec (get_users no_format) (start (api [user1; nameless])) =
      (inl e, after_users [user1; nameless]) /\
    main no_format (fun n => n) (start (api [user1; nameless])) =
      Some (inl e, after_users [user1; nameless]) /\
    (Forall (fun u => has_int_id u \/ lacks_id u) [user1; nameless] ->
     e = TypeError).
Proof.
  apply (get_users_raises_without_id no_format (fun n => n)
           (start (api [user1; nameless])) (after_users [user1; nameless])
           [user1; nameless]).
  - vm_compute. reflexivity.
  - right. left. left. vm_compute. reflexivity.
Defined.


Lemma retry_is_transparent_witness :
  fst (exec (fetch_json USERS_URL) (start flaky)) = inr [user1; user2] /\
  fst (exec (fetch_json USERS_URL)
         (mkWorld flaky [USERS_URL; USERS_URL] [] [] None)) = inr [user1; user2].
Proof.
  apply (retry_is_transparent USERS_URL [user1; user2] (start flaky)
           (mkWorld flaky [USERS_URL; USERS_URL] [] [] None)).
  - eexists. vm_compute. reflexivity.
  - eexists. vm_compute. reflexivity.
  - vm_compute. reflexivity.
  - vm_compute. reflexivity.
Defined.

Lemma process_user_data_rows_ok_witness : Forall row_ok [row_2_10_100].
Proof.
  destruct (exec_returns (process_user_data user2) (start (api []))
              [row_2_10_100] after_task) as (p & Hp & _).
  - vm_compute. reflexivity.
  - exact (process_user_data_rows_ok _ _ _ _ Hp).
Defined.

Lemma empty_result_writes_nothing_witness :
  main no_format (fun n => n) (start (api [user1])) =
    Some (inr tt, do_log (after_users [user1]) InfoNoData) /\
  output_csv (do_log (after_users [user1]) InfoNoData) =
    output_csv (start (api [user1])) /\
  log (do_log (after_users [user1]) InfoNoData) =
    log (after_users [user1]) ++ [InfoNoData].
Proof.
  apply (empty_result_writes_nothing no_format (fun n => n)
           (start (api [user1])) (after_users [user1])).
  right. vm_compute. reflexivity.
Defined.




(** C3, as the specification states it, fails: when every attempt fails the
    two waits of a call are both 4 time-units, so they do not increase, and
    there is no third wait. *)
Lemma fetch_json_waits_do_not_increase :
  slept (snd (exec (fetch_json USERS_URL) (start down))) = [4%Z; 4%Z] /\
  ~ strictly_increasing (slept (snd (exec (fetch_json USERS_URL) (start down)))).
Proof.
  split; [vm_compute; reflexivity|].
  intros H. specialize (H 0 4%Z 4%Z). simpl in H.
  assert (4 < 4)%Z by (apply H; reflexivity). lia.
Qed.


(** ** More about the code, on concrete runs *)



Lemma process_user_data_requests_witness :
  Forall (task_request (served_by (api [])) user2)
         [posts_url (VInt 2); comments_url (VInt 10); comments_url (VInt 9)].
Proof.
  destruct (exec_returns (process_user_data user2) (start (api []))
              [row_2_10_100] after_task) as (p & Hp & Hh).
  - vm_compute. reflexivity.
  - simpl in Hh. rewrite Hh.
    exact (proj1 (process_user_data_requests _ _ _ (returns_reaches _ _ _ _ Hp))).
Defined.

Lemma run_row_bound_witness :
  length [row_2_10_100] <= 15 * length (users_of no_format (start (api [user1; user2]))).
Proof.
  apply (run_row_bound no_format (fun n => n) (start (api [user1; user2]))
           after_collect [row_2_10_100]).
  vm_compute. reflexivity.
Defined.

Lemma run_rows_join_witness :
  Forall (fun row =>
            exists user,
              In user (users_of no_format (start (api [user1; user2]))) /\
              joins (served_by (api [user1; user2])) user row)
         [row_2_10_100].
Proof.
  apply (run_rows_join no_format (fun n => n) (start (api [user1; user2]))
           after_collect [row_2_10_100]).
  vm_compute. reflexivity.
Defined.




Lemma rerun_leaves_file_witness :
  exists w'',
    main no_format (fun n => n + 1) after_main = Some (inr tt, w'') /\
    output_csv w'' = output_csv after_main.
Proof.
  apply (rerun_leaves_file no_format (fun n => n) (fun n => n + 1)
           (start (api [user1; user2])) after_main).
  - intros url o o' [h <-] [h' <-]. reflexivity.
  - vm_compute. reflexivity.
Defined.

